(** * Language and skill clean-up: a shallow embedding of [clean.py] and
    [clean_skills.py]

    The two scripts are text normalisers.  [clean.py] rewrites the [languages]
    array of the documents of a collection; [clean_skills.py] deduplicates and
    sorts a column of skill names.  Both lean on Python's [str] methods and on
    the [re] module, so the development starts with a model of those.

    Characters.  A Python [str] is a sequence of code points.  The model keeps
    the code points U+0000..U+00FF (Basic Latin and Latin-1 Supplement), and
    three code points outside that range, one for each behaviour of the
    Unicode tables that the scripts meet and that no character of the range
    shows: U+017F and U+0131, which [re.IGNORECASE] takes for "s" and "i",
    and U+1D400, an uppercase letter that [str.lower] leaves as it is and
    that NFKD folds to an uppercase ASCII letter.  On this alphabet the
    tables that the scripts consult ([str.lower], [str.isspace], the classes
    [\s], [\w], [\d] of [re], the NFKD decompositions) are finite and are
    written out below.

    Values.  The fields of a language entry are text or null, as in the data
    model of the specification; an entry is a dict, a [gmap] from field names
    to values, so that equality of entries is equality of their bindings.

    Effects.  [clean_languages] is a computation over the state of its
    [client] variable and of the collection, in a state-and-exception monad;
    what the logger, the client and the store answer is a parameter of the
    run.  Log lines, the clock and the CSV files of [clean_skills.py] are
    left out: no claim depends on them.

    The first part of the file holds the definitions, the second part the
    properties. *)

From Stdlib Require Import Ascii String NArith.
From Stdlib.Strings Require Import Byte.
From stdpp Require Import gmap strings list sorting.

Open Scope string_scope.
Open Scope list_scope.
Open Scope nat_scope.

(** A character of the model: a code point of U+0000..U+00FF, given by the
    [ascii] that has its number, or one of three further code points. *)
Inductive char : Type :=
| Latin (a : ascii)
| LongS           (* U+017F, LATIN SMALL LETTER LONG S *)
| DotlessI        (* U+0131, LATIN SMALL LETTER DOTLESS I *)
| BoldA.          (* U+1D400, MATHEMATICAL BOLD CAPITAL A *)

Global Instance char_eq_dec : EqDecision char.
Proof. solve_decision. Defined.

(** A character literal ["x"%char] is the character of the range with that
    byte. *)
Definition char_of_bytes (l : list Byte.byte) : option char :=
  match l with
  | [b] => Some (Latin (ascii_of_byte b))
  | _ => None
  end.

Definition bytes_of_char (c : char) : option (list Byte.byte) :=
  match c with
  | Latin a => Some [byte_of_ascii a]
  | _ => None
  end.

Declare Scope point_scope.
String Notation char char_of_bytes bytes_of_char : point_scope.
Undelimit Scope char_scope.
Delimit Scope point_scope with char.
Bind Scope point_scope with char.

Abbreviation str := (list char).

(** String literals of the source are written [lit "..."]. *)
Definition lit (s : string) : str := Latin <$> list_ascii_of_string s.

(** [erase P s o]: [o] is [s] without some of its characters, each of the
    missing ones satisfying [P]. *)
Inductive erase (P : char → Prop) : str → str → Prop :=
| erase_nil : erase P [] []
| erase_keep x s o : erase P s o → erase P (x :: s) (x :: o)
| erase_drop x s o : P x → erase P s o → erase P (x :: s) o.

(** ** Characters: the part of the Unicode database the scripts use *)
Module Unicode.

(** The number of the code point. *)
Definition code (c : char) : N :=
  match c with
  | Latin a => N_of_ascii a
  | LongS => 383
  | DotlessI => 305
  | BoldA => 119808
  end.

(** The character with that number, for the numbers of the alphabet. *)
Definition of_code (n : N) : char :=
  if (n =? 383)%N then LongS
  else if (n =? 305)%N then DotlessI
  else if (n =? 119808)%N then BoldA
  else Latin (ascii_of_N n).

Definition between (lo hi : N) (c : char) : bool :=
  (lo <=? code c)%N && (code c <=? hi)%N.

Definition newline : char := of_code 10.

(** [str.isspace] and the class [\s] of [re] on a [str] pattern: TAB..CR,
    the separators FS..US, SPACE, NEL (U+0085) and NO-BREAK SPACE (U+00A0). *)
Definition is_space (c : char) : bool :=
  between 9 13 c || between 28 32 c || (code c =? 133)%N || (code c =? 160)%N.

(** Letters with a lowercase counterpart: A-Z, À-Ö, Ø-Þ. *)
Definition has_lower (c : char) : bool :=
  between 65 90 c || between 192 214 c || between 216 222 c.

(** [str.isupper] on one character: the letters with a lowercase
    counterpart, and U+1D400, which has none. *)
Definition is_upper (c : char) : bool := has_lower c || bool_decide (c = BoldA).

(** Letters with an uppercase counterpart inside the range: a-z, à-ö, ø-þ.
    (ÿ and µ have theirs outside the alphabet, ß has none.) *)
Definition is_lower_cased (c : char) : bool :=
  between 97 122 c || between 224 246 c || between 248 254 c.

(** [str.lower] on one character. *)
Definition lower_char (c : char) : char :=
  if has_lower c then of_code (code c + 32) else c.

(** [str.upper] on one character; U+017F and U+0131 have "S" and "I". *)
Definition upper_char (c : char) : char :=
  match c with
  | LongS => "S"%char
  | DotlessI => "I"%char
  | _ => if is_lower_cased c then of_code (code c - 32) else c
  end.

(** How [re.IGNORECASE] compares a character with a literal: through the
    lowercase forms, U+017F counting as "s" and U+0131 as "i". *)
Definition case_fold (c : char) : char :=
  match lower_char c with
  | LongS => "s"%char
  | DotlessI => "i"%char
  | l => l
  end.

(** [str.isdecimal], the class [\d]. *)
Definition is_decimal (c : char) : bool := between 48 57 c.

(** [str.isalnum]: letters (with ª, µ, º and the three letters outside the
    range), decimal digits, and the other numeric characters ², ³, ¹, ¼,
    ½, ¾. *)
Definition is_alnum (c : char) : bool :=
  is_decimal c || between 65 90 c || between 97 122 c
  || (code c =? 170)%N || between 178 179 c || (code c =? 181)%N
  || between 185 186 c || between 188 190 c
  || between 192 214 c || between 216 246 c || between 248 255 c
  || (code c =? 305)%N || (code c =? 383)%N || (code c =? 119808)%N.

(** The class [\w]: alphanumeric, or the underscore. *)
Definition is_word (c : char) : bool := is_alnum c || (code c =? 95)%N.

(** [unicodedata.normalize('NFKD', c).encode('ASCII', 'ignore')] for one
    character: the ASCII characters of its compatibility decomposition.
    An ASCII character is its own decomposition; combining marks, and
    characters without an ASCII base, leave nothing. *)
Definition ascii_fold_char (c : char) : str :=
  let n := code c in
  if (n <? 128)%N then [c]
  else if (n =? 160)%N || (n =? 168)%N || (n =? 175)%N || (n =? 180)%N
          || (n =? 184)%N then lit " "
  else if (n =? 170)%N then lit "a"
  else if (n =? 178)%N then lit "2"
  else if (n =? 179)%N then lit "3"
  else if (n =? 185)%N then lit "1"
  else if (n =? 186)%N then lit "o"
  else if (n =? 188)%N then lit "14"
  else if (n =? 189)%N then lit "12"
  else if (n =? 190)%N then lit "34"
  else if between 192 197 c then lit "A"
  else if (n =? 199)%N then lit "C"
  else if between 200 203 c then lit "E"
  else if between 204 207 c then lit "I"
  else if (n =? 209)%N then lit "N"
  else if between 210 214 c then lit "O"
  else if between 217 220 c then lit "U"
  else if (n =? 221)%N then lit "Y"
  else if between 224 229 c then lit "a"
  else if (n =? 231)%N then lit "c"
  else if between 232 235 c then lit "e"
  else if between 236 239 c then lit "i"
  else if (n =? 241)%N then lit "n"
  else if between 242 246 c then lit "o"
  else if between 249 252 c then lit "u"
  else if (n =? 253)%N || (n =? 255)%N then lit "y"
  else if (n =? 383)%N then lit "s"
  else if (n =? 119808)%N then lit "A"
  else [].

(** Code points are countable: strings can be the keys of a dict. *)
Lemma of_code_code c : of_code (code c) = c.
Proof. by destruct c as [[[] [] [] [] [] [] [] []] | | |]. Qed.

Global Instance char_countable : Countable char :=
  inj_countable' code of_code of_code_code.

End Unicode.

(** ** The [str] methods the scripts call *)
Module Str.
Import Unicode.

(** [s.lower()] *)
Definition lower (s : str) : str := map lower_char s.

(** [s.upper()].  Only called on a string that matched [^a[1-5]$], where
    every character has its uppercase form inside the range. *)
Definition upper (s : str) : str := map upper_char s.

Fixpoint lstrip (s : str) : str :=
  match s with
  | c :: s' => if is_space c then lstrip s' else s
  | [] => []
  end.

Definition rstrip (s : str) : str := rev (lstrip (rev s)).

(** [s.strip()] *)
Definition strip (s : str) : str := rstrip (lstrip s).

(** [s.split(sep)] for a one-character separator: the pieces between the
    occurrences of [sep], empty ones included. *)
Fixpoint split (sep : char) (s : str) : list str :=
  match s with
  | [] => [[]]
  | c :: s' =>
      if decide (c = sep) then [] :: split sep s'
      else match split sep s' with
           | p :: ps => (c :: p) :: ps
           | [] => [[c]]
           end
  end.

(** Truth value of a string: [if s:] holds for the non-empty ones. *)
Definition truthy (s : str) : bool :=
  match s with [] => false | _ => true end.

(** Comparison of two strings as [list.sort] does it: code point by code
    point, a proper prefix first. *)
Fixpoint leb (a b : str) : bool :=
  match a, b with
  | [], _ => true
  | _ :: _, [] => false
  | x :: a', y :: b' =>
      if (code x <? code y)%N then true
      else if (code y <? code x)%N then false
      else leb a' b'
  end.

Definition le (a b : str) : Prop := leb a b = true.

Global Instance le_dec : RelDecision le.
Proof. intros a b. unfold le. apply _. Defined.

End Str.

(** ** The [re] module: a backtracking matcher

    The patterns of the two scripts use literals, character classes, the
    anchors [^] and [$], alternation, one capturing group, an optional item
    and repetitions of a single character class.  [exec] follows the search
    order of Python's engine: alternatives left to right, greedy repetitions
    longest first, the lazy one shortest first.  The continuation receives the
    text still to be read and the content of group 1. *)
Module Re.
Import Unicode.

(** One-character items. *)
Inductive cset : Type :=
| Chr (c : char)           (* a literal character *)
| Dot                      (* [.]: anything but a newline *)
| Space                    (* [\s] *)
| Word                     (* [\w] *)
| Digit                    (* [\d] *)
| Range (lo hi : char)     (* [lo-hi] inside brackets *)
| Or (a b : cset)          (* two items inside the same brackets *)
| Neg (a : cset).          (* [^...] *)

Inductive regex : Type :=
| Eps
| One (c : cset)
| Seq (a b : regex)
| Alt (a b : regex)
| Opt (a : regex)          (* [a?] *)
| Star (c : cset)          (* [c*] *)
| Plus (c : cset)          (* [c+] *)
| LazyStar (c : cset)      (* [c*?] *)
| Group (a : regex)        (* [(a)], group 1 *)
| Bol                      (* [^] *)
| Eol.                     (* [$] *)

(** A literal word, character after character. *)
Fixpoint word (s : str) : regex :=
  match s with
  | [] => Eps
  | [c] => One (Chr c)
  | c :: s' => Seq (One (Chr c)) (word s')
  end.

(** [in_set c x]: the item accepts [x], case taken as it is. *)
Fixpoint in_set (c : cset) (x : char) : bool :=
  match c with
  | Chr y => bool_decide (x = y)
  | Dot => negb (bool_decide (x = newline))
  | Space => is_space x
  | Word => is_word x
  | Digit => is_decimal x
  | Range lo hi => between (code lo) (code hi) x
  | Or a b => in_set a x || in_set b x
  | Neg a => negb (in_set a x)
  end.

(** With [re.IGNORECASE] ([ic = true]) a literal is compared through
    [case_fold], and a class also accepts a character whose lowercase or
    uppercase form it contains. *)
Fixpoint accepts (ic : bool) (c : cset) (x : char) : bool :=
  match c with
  | Chr y => if ic then bool_decide (case_fold x = case_fold y)
             else bool_decide (x = y)
  | Neg a => negb (accepts ic a x)
  | Or a b => accepts ic a x || accepts ic b x
  | _ => in_set c x
         || (ic && (in_set c (lower_char x) || in_set c (upper_char x)))
  end.

Section Exec.
Context {R : Type}.
Variable ic : bool.

Fixpoint star (c : cset) (k : str → option R) (s : str) : option R :=
  match s with
  | x :: s' =>
      if accepts ic c x then
        match star c k s' with
        | Some r => Some r
        | None => k s
        end
      else k s
  | [] => k s
  end.

Definition plus (c : cset) (k : str → option R) (s : str) : option R :=
  match s with
  | x :: s' => if accepts ic c x then star c k s' else None
  | [] => None
  end.

Fixpoint lazy_star (c : cset) (k : str → option R) (s : str) : option R :=
  match k s with
  | Some r => Some r
  | None =>
      match s with
      | x :: s' => if accepts ic c x then lazy_star c k s' else None
      | [] => None
      end
  end.

(** [n0] is the length of the whole subject: [^] holds where nothing has
    been read yet, [$] at the end or before a final newline. *)
Variable n0 : nat.

Fixpoint exec (r : regex) (k : str → option str → option R)
    (s : str) (g : option str) : option R :=
  match r with
  | Eps => k s g
  | One c =>
      match s with
      | x :: s' => if accepts ic c x then k s' g else None
      | [] => None
      end
  | Seq a b => exec a (exec b k) s g
  | Alt a b =>
      match exec a k s g with
      | Some r => Some r
      | None => exec b k s g
      end
  | Opt a =>
      match exec a k s g with
      | Some r => Some r
      | None => k s g
      end
  | Star c => star c (λ s', k s' g) s
  | Plus c => plus c (λ s', k s' g) s
  | LazyStar c => lazy_star c (λ s', k s' g) s
  | Group a =>
      exec a (λ s' _, k s' (Some (take (length s - length s') s))) s g
  | Bol => if bool_decide (length s = n0) then k s g else None
  | Eol =>
      match s with
      | [] => k s g
      | [c] => if bool_decide (c = newline) then k s g else None
      | _ => None
      end
  end.
End Exec.

(** A match found in a subject: the text before it, the text matched, the
    text after it, and group 1. *)
Record found : Type := Found {
  before : str;
  matched : str;
  after : str;
  group1 : option str
}.

(** The match that starts at the head of [s], if there is one: the text it
    leaves unread, and group 1. *)
Definition match_here (ic : bool) (n0 : nat) (r : regex) (s : str)
    : option (str * option str) :=
  exec ic n0 r (λ s' g, Some (s', g)) s None.

Fixpoint search_from (ic : bool) (n0 : nat) (r : regex) (pre : str) (s : str)
    : option found :=
  match match_here ic n0 r s with
  | Some (s', g) =>
      Some (Found (rev pre) (take (length s - length s') s) s' g)
  | None =>
      match s with
      | [] => None
      | x :: s' => search_from ic n0 r (x :: pre) s'
      end
  end.

(** [re.search(r, s)]: the leftmost match. *)
Definition search (ic : bool) (r : regex) (s : str) : option found :=
  search_from ic (length s) r [] s.

(** [re.match(r, s)]: a match at the start of [s]. *)
Definition match_ (ic : bool) (r : regex) (s : str) : option found :=
  match match_here ic (length s) r s with
  | Some (s', g) => Some (Found [] (take (length s - length s') s) s' g)
  | None => None
  end.

(** [re.sub(r, repl, s)] for a replacement without back-references: every
    non-overlapping match, leftmost first, is replaced.  [skip] counts the
    characters of the current match that are still to be passed over.  An
    empty match is replaced too and the scan moves on by one character. *)
Fixpoint sub_from (ic : bool) (n0 : nat) (r : regex) (repl : str)
    (skip : nat) (s : str) : str :=
  match s with
  | [] =>
      match skip, match_here ic n0 r [] with
      | 0, Some _ => repl
      | _, _ => []
      end
  | x :: s' =>
      match skip with
      | S n => sub_from ic n0 r repl n s'
      | 0 =>
          match match_here ic n0 r s with
          | Some (rest, _) =>
              match length s - length rest with
              | 0 => repl ++ x :: sub_from ic n0 r repl 0 s'
              | S n => repl ++ sub_from ic n0 r repl n s'
              end
          | None => x :: sub_from ic n0 r repl 0 s'
          end
      end
  end.

Definition sub (ic : bool) (r : regex) (repl : str) (s : str) : str :=
  sub_from ic (length s) r repl 0 s.

(** [re.split(r, s)] for a pattern without groups: the pieces between the
    matches.  [cur] is the current piece, last character first. *)
Fixpoint split_from (ic : bool) (n0 : nat) (r : regex)
    (skip : nat) (cur : str) (s : str) : list str :=
  match s with
  | [] =>
      match skip, match_here ic n0 r [] with
      | 0, Some _ => [rev cur; []]
      | _, _ => [rev cur]
      end
  | x :: s' =>
      match skip with
      | S n => split_from ic n0 r n cur s'
      | 0 =>
          match match_here ic n0 r s with
          | Some (rest, _) =>
              match length s - length rest with
              | 0 => rev cur :: split_from ic n0 r 0 [x] s'
              | S n => rev cur :: split_from ic n0 r n [] s'
              end
          | None => split_from ic n0 r 0 (x :: cur) s'
          end
      end
  end.

Definition split (ic : bool) (r : regex) (s : str) : list str :=
  split_from ic (length s) r 0 [] s.

(** [may_read ic r x]: some one-character item of [r] accepts [x]. *)
Fixpoint may_read (ic : bool) (r : regex) (x : char) : bool :=
  match r with
  | Eps | Bol | Eol => false
  | One c | Star c | Plus c | LazyStar c => accepts ic c x
  | Seq a b | Alt a b => may_read ic a x || may_read ic b x
  | Opt a | Group a => may_read ic a x
  end.

End Re.

(** ** Python values and outcomes *)

(** The value of a field of a language entry: the spec's data model makes
    [language] and [proficiency] free text, possibly null. *)
Inductive pyval : Type :=
| PNone
| PStr (s : str).

Global Instance pyval_eq_dec : EqDecision pyval.
Proof. solve_decision. Defined.

(** Truth value: [None] and the empty string are false. *)
Definition truthy (v : pyval) : bool :=
  match v with
  | PNone => false
  | PStr s => Str.truthy s
  end.

(** A Python dict with string keys.  Equality of two [gmap]s is equality of
    their bindings, which is what [==] on two dicts computes. *)
Abbreviation dict := (gmap string pyval).

(** [d.get(k)]: the value, or [None] when the key is absent. *)
Definition get (k : string) (d : dict) : pyval := default PNone (d !! k).

Inductive exn : Type :=
| UnboundLocalError (name : string)
| ZeroDivisionError
| ValueError (msg : string)
| OSError
| PyMongoError (msg : string).

(** What a call does: return a value or raise. *)
Inductive outcome (A : Type) : Type :=
| Return (a : A)
| Raise (e : exn).
Arguments Return {A} a.
Arguments Raise {A} e.

(** ** [clean.py] *)
Module Clean.
Import Unicode Re.

(** [r'^a[1-5]$'] *)
Definition a_level : regex :=
  Seq Bol (Seq (One (Chr "a")) (Seq (One (Range "1" "5")) Eol)).

Definition proficiency_mapping : gmap str str :=
  list_to_map [
    (lit "beginner", lit "Beginner");
    (lit "basic", lit "Beginner");
    (lit "elementary", lit "Beginner");
    (lit "novice", lit "Beginner");
    (lit "fundamental", lit "Beginner");
    (lit "intermediate", lit "Intermediate");
    (lit "medium", lit "Intermediate");
    (lit "mid", lit "Intermediate");
    (lit "mid level", lit "Intermediate");
    (lit "mid-level", lit "Intermediate");
    (lit "advanced", lit "Advanced");
    (lit "advance", lit "Advanced");
    (lit "expert", lit "Advanced");
    (lit "fluent", lit "Advanced");
    (lit "proficient", lit "Advanced");
    (lit "professional", lit "Advanced")
  ].

Definition normalize_proficiency (proficiency : pyval) : pyval :=
  match proficiency with
  | PNone => PNone
  | PStr p =>
      if negb (Str.truthy p) then PNone
      else
        let prof := Str.strip (Str.lower p) in
        match Re.match_ false a_level prof with
        | Some _ => PStr (Str.upper prof)
        | None =>
            match proficiency_mapping !! prof with
            | Some v => PStr v
            | None => PNone
            end
        end
  end.

(** [(beginner|basic|intermediate|advance[d]?|a[1-5])] *)
Definition level_token : regex :=
  Group
    (Alt (word (lit "beginner"))
    (Alt (word (lit "basic"))
    (Alt (word (lit "intermediate"))
    (Alt (Seq (word (lit "advance")) (Opt (One (Chr "d"))))
         (Seq (One (Chr "a")) (One (Range "1" "5"))))))).

(** [r'\((.*?)\)']: anything in parentheses *)
Definition in_parentheses : regex :=
  Seq (One (Chr "(")) (Seq (Group (LazyStar Dot)) (One (Chr ")"))).

(** [r'- *(...)']: after a hyphen *)
Definition after_hyphen : regex :=
  Seq (One (Chr "-")) (Seq (Star (Chr " ")) level_token).

(** [r', *(...)']: after a comma *)
Definition after_comma : regex :=
  Seq (One (Chr ",")) (Seq (Star (Chr " ")) level_token).

(** [r' (...)$']: at the end *)
Definition at_end : regex :=
  Seq (One (Chr " ")) (Seq level_token Eol).

Definition proficiency_patterns : list regex :=
  [in_parentheses; after_hyphen; after_comma; at_end].

(** [match.group(1)] *)
Definition group (m : found) : pyval :=
  match group1 m with
  | Some g => PStr g
  | None => PNone
  end.

(** The loop over the patterns: the first one found in the string gives
    the marker and is removed with [re.sub]; the loop then stops. *)
Fixpoint try_patterns (patterns : list regex) (language_str : str)
    : str * pyval :=
  match patterns with
  | [] => (language_str, PNone)
  | pattern :: rest =>
      match Re.search true pattern language_str with
      | Some m => (Re.sub true pattern [] language_str, group m)
      | None => try_patterns rest language_str
      end
  end.

Definition extract_proficiency_from_name (language_str : str) : str * pyval :=
  let language_str := Str.strip (Str.lower language_str) in
  let '(language_str, extracted_proficiency) :=
    try_patterns proficiency_patterns language_str in
  (Str.strip language_str, normalize_proficiency extracted_proficiency).

(** [r'\s+and\s+'] *)
Definition and_pattern : regex :=
  Seq (Plus Space) (Seq (word (lit "and")) (Plus Space)).

(** [and_split] of the source, for one comma-separated item. *)
Definition and_split (item : str) : list str :=
  map Str.strip (Re.split false and_pattern item).

(** [final_languages] of the source. *)
Definition final_languages (lang_str : str) : list str :=
  let initial_split := map Str.strip (Str.split "," lang_str) in
  flat_map and_split initial_split.

(** The entry built from one candidate. *)
Definition make_entry (clean_lang : str) (final_proficiency : pyval) : dict :=
  {[ "language" := PStr (Str.strip clean_lang);
     "proficiency" := final_proficiency ]}.

(** The body of [for lang in final_languages]: what one candidate appends
    to [cleaned_languages]. *)
Definition clean_candidate (lang_obj : dict) (lang : str) : list dict :=
  if Str.truthy lang then
    let '(clean_lang, extracted_prof) := extract_proficiency_from_name lang in
    let final_proficiency :=
      if negb (truthy extracted_prof)
      then normalize_proficiency (get "proficiency" lang_obj)
      else extracted_prof in
    if Str.truthy clean_lang then [make_entry clean_lang final_proficiency]
    else []
  else [].

(** The body of [for lang_obj in current_languages]. *)
Definition clean_entry (lang_obj : dict) : list dict :=
  match lang_obj !! "language" with
  | None => []
  | Some PNone => []
  | Some (PStr lang_str) =>
      if negb (Str.truthy lang_str) then []
      else flat_map (clean_candidate lang_obj) (final_languages lang_str)
  end.

(** [cleaned_languages] once the loop over the entries is done. *)
Definition cleaned_languages (current_languages : list dict) : list dict :=
  flat_map clean_entry current_languages.

(** A document of the collection: its [_id] and, when it has the field,
    its [languages] array. *)
Record doc : Type := Doc {
  doc_id : Z;
  languages : option (list dict)
}.

(** The collection as the script sees it: the [update_one] calls issued so
    far (latest first), each setting the [languages] of one document, and
    the documents for which the store raises instead of answering. *)
Record collection : Type := Collection {
  issued : list (Z * list dict);
  refuses : Z → bool
}.

Definition update_one (c : collection) (id : Z) (langs : list dict)
    : outcome unit * collection :=
  let c' := Collection ((id, langs) :: issued c) (refuses c) in
  if refuses c id then (Raise (PyMongoError "update_one"), c')
  else (Return (), c').

(** The counters of [process_batch] and the collection. *)
Record batch_state : Type := BatchState {
  batch_updates : nat;
  batch_errors : nat;
  coll : collection
}.

(** The body of [for doc in batch], with its [try] / [except Exception].
    The documents of the model have a [languages] that is absent or a list
    of dicts whose fields are text or null; on these the cleaning raises
    nothing, and the [except] clause is reached from [update_one] only. *)
Definition process_doc (st : batch_state) (d : doc) : batch_state :=
  match languages d with
  | None => st
  | Some current_languages =>
      let cleaned := cleaned_languages current_languages in
      if bool_decide (cleaned ≠ current_languages) then
        match update_one (coll st) (doc_id d) cleaned with
        | (Return _, c') =>
            BatchState (S (batch_updates st)) (batch_errors st) c'
        | (Raise _, c') =>
            BatchState (batch_updates st) (S (batch_errors st)) c'
        end
      else st
  end.

Definition process_batch (batch : list doc) (c : collection)
    : nat * nat * collection :=
  let st := foldl process_doc (BatchState 0 0 c) batch in
  (batch_updates st, batch_errors st, coll st).

(** *** [clean_languages]

    The run talks to a logger, a client and a store.  What they answer is
    given by an [environment]; the run itself is a computation over the
    state of its [client] variable and of the collection. *)

Inductive client_state : Type :=
| Unbound          (* the name [client] is not assigned *)
| Connected
| Closed.

Record environment : Type := Environment {
  setup_logger : outcome unit;
  mongo_client : outcome unit;           (* [MongoClient(db_uri)] *)
  count_documents : outcome nat;
  (* [collection.find(..., batch_size=batch_size)], for each batch size:
     the documents the cursor yields, or what the call raises *)
  find : Z → outcome (list doc);
  cursor_error : option exn              (* raised by the cursor after them *)
}.

Record run_state : Type := RunState {
  client : client_state;
  store : collection
}.

Definition M (A : Type) : Type := run_state → outcome A * run_state.

Definition ret {A} (a : A) : M A := λ st, (Return a, st).
Definition raise {A} (e : exn) : M A := λ st, (Raise e, st).
Definition bind {A B} (m : M A) (f : A → M B) : M B :=
  λ st, match m st with
        | (Return a, st') => f a st'
        | (Raise e, st') => (Raise e, st')
        end.
Definition call {A} (o : outcome A) : M A := λ st, (o, st).

Global Instance M_ret : MRet M := @ret.
Global Instance M_bind : MBind M := λ A B f m, bind m f.

(** [try: body except Exception as e: handler(e)] *)
Definition try_except {A} (body : M A) (handler : exn → M A) : M A :=
  λ st, match body st with
        | (Return a, st') => (Return a, st')
        | (Raise e, st') => handler e st'
        end.

(** [try: body finally: cleanup]: the clean-up always runs; what it raises
    replaces the outcome of the body. *)
Definition try_finally {A} (body : M A) (cleanup : M unit) : M A :=
  λ st, match body st with
        | (o, st') =>
            match cleanup st' with
            | (Return _, st'') => (o, st'')
            | (Raise e, st'') => (Raise e, st'')
            end
        end.

(** [client = MongoClient(db_uri)]: the name is assigned only if the call
    returns. *)
Definition assign_client (env : environment) : M unit :=
  λ st, match mongo_client env with
        | Return _ => (Return (), RunState Connected (store st))
        | Raise e => (Raise e, st)
        end.

(** [client.close()] *)
Definition close_client : M unit :=
  λ st, match client st with
        | Unbound => (Raise (UnboundLocalError "client"), st)
        | _ => (Return (), RunState Closed (store st))
        end.

Definition run_batch (batch : list doc) : M (nat * nat) :=
  λ st, match process_batch batch (store st) with
        | (u, e, c) => (Return (u, e), RunState (client st) c)
        end.

(** The returned object. *)
Inductive result : Type :=
| Completed (total_updates total_errors : nat)
| Failed (error : exn).

Definition status (r : result) : string :=
  match r with
  | Completed _ _ => "completed"
  | Failed _ => "failed"
  end.

(** The local variables of the loop over the cursor. *)
Record counters : Type := Counters {
  total_updates : nat;
  total_errors : nat;
  processed : nat;
  current_batch : list doc
}.

(** The body of [for doc in cursor]. *)
Definition cursor_step (batch_size : Z) (total_docs : nat)
    (k : counters) (d : doc) : M counters :=
  let current_batch := current_batch k ++ [d] in
  if bool_decide (Z.of_nat (length current_batch) = batch_size) then
    '(updates, errors) ← run_batch current_batch;
    let total_updates := total_updates k + updates in
    let total_errors := total_errors k + errors in
    let processed := processed k + length current_batch in
    (* progress = (processed / total_docs) * 100 *)
    if bool_decide (total_docs = 0) then raise ZeroDivisionError
    else mret (Counters total_updates total_errors processed [])
  else mret (Counters (total_updates k) (total_errors k) (processed k)
               current_batch).

Fixpoint cursor_loop (batch_size : Z) (total_docs : nat)
    (cursor : list doc) (k : counters) : M counters :=
  match cursor with
  | [] => mret k
  | d :: cursor' =>
      k' ← cursor_step batch_size total_docs k d;
      cursor_loop batch_size total_docs cursor' k'
  end.

(** [if current_batch:] after the loop. *)
Definition final_batch (k : counters) : M counters :=
  match current_batch k with
  | [] => mret k
  | _ =>
      '(updates, errors) ← run_batch (current_batch k);
      mret (Counters (total_updates k + updates) (total_errors k + errors)
              (processed k) (current_batch k))
  end.

Definition clean_languages (env : environment) (batch_size : Z) : M result :=
  call (setup_logger env);;
  try_finally
    (try_except
       (assign_client env;;
        total_docs ← call (count_documents env);
        cursor ← call (find env batch_size);
        k ← cursor_loop batch_size total_docs cursor (Counters 0 0 0 []);
        match cursor_error env with Some e => raise e | None => mret () end;;
        k ← final_batch k;
        mret (Completed (total_updates k) (total_errors k)))
       (λ e, mret (Failed e)))
    close_client.

(** The state in which a run starts. *)
Definition initial (c : collection) : run_state := RunState Unbound c.

End Clean.

(** ** [clean_skills.py] *)
Module CleanSkills.
Import Unicode Re.

(** A value of the [skills] column as [df['skills'].tolist()] hands it to
    the loop: a string, or something else.  What [pandas.read_csv] makes of
    the file is not modelled: it reads an empty cell and the texts it
    takes for missing values ("NA", "null", "NaN", ...) as a float NaN, and
    a column of numerals as numbers; all of these arrive as [COther]. *)
Inductive cell : Type :=
| CStr (s : str)
| COther.

(** [r'^[\s...]+']: whitespace and the bullet glyphs.  Of the glyphs listed
    in the source, those of the alphabet are [-], [*], [+], [>] and the middle
    dot U+00B7. *)
Definition middle_dot : char := of_code 183.

Definition bullets : regex :=
  Seq Bol
    (Plus (Or Space (Or (Chr "-") (Or (Chr "*") (Or (Chr "+")
          (Or (Chr ">") (Chr middle_dot))))))).

Definition clean_skill_name (skill : cell) : str :=
  match skill with
  | COther => []
  | CStr skill =>
      let skill := Re.sub false bullets [] skill in
      Str.strip skill
  end.

(** NFKD, then [encode('ASCII', 'ignore')]. *)
Definition ascii_fold (s : str) : str := flat_map ascii_fold_char s.

(** Called on the result of [clean_skill_name], which is a string. *)
Definition normalize_for_comparison (skill : str) : str :=
  let normalized := Str.lower skill in
  (* [^\w\s] *)
  let normalized := Re.sub false (One (Neg (Or Word Space))) [] normalized in
  (* \s+ *)
  let normalized := Re.sub false (Plus Space) (lit " ") normalized in
  let normalized := Str.strip normalized in
  ascii_fold normalized.

(** [r'^\d+$'] *)
Definition digits_only : regex := Seq Bol (Seq (Plus Digit) Eol).

Definition is_valid_skill (skill normalized_skill : str) : bool :=
  if negb (Str.truthy normalized_skill) then false
  else if bool_decide (is_Some (Re.match_ false digits_only
                                  normalized_skill)) then false
  else if bool_decide (length normalized_skill = 0)
          && bool_decide (0 < length skill) then false
  else if bool_decide (length normalized_skill < 2) then false
  else true.

(** The loop of [process_skills_file]: [normalized_map] and
    [cleaned_skills] after one more skill. *)
Definition add_skill (acc : gmap str str * list str) (skill : cell)
    : gmap str str * list str :=
  let '(normalized_map, cleaned_skills) := acc in
  let cleaned_skill := clean_skill_name skill in
  let normalized_skill := normalize_for_comparison cleaned_skill in
  if is_valid_skill cleaned_skill normalized_skill then
    match normalized_map !! normalized_skill with
    | None =>
        (<[normalized_skill := cleaned_skill]> normalized_map,
         cleaned_skills ++ [cleaned_skill])
    | Some _ => acc
    end
  else acc.

(** [cleaned_skills.sort()]: the strings in ascending order.  The order is
    total and two strings that compare equal are the same string, so every
    sorting algorithm returns the same list. *)
Definition sort (l : list str) : list str := merge_sort Str.le l.

(** From the cells of the column to the rows written to the output file,
    under the header: the loop and the sort.  Reading the input file and
    writing the output file are left out. *)
Definition process_skills_file (skills : list cell) : list str :=
  let '(_, cleaned_skills) := foldl add_skill (∅, []) skills in
  sort cleaned_skills.

End CleanSkills.

(** ** Parentheses

    Pattern (a) finds an opening parenthesis that is closed on the same
    line.  The two functions below say so without the matcher. *)
Module Paren.
Import Unicode.




End Paren.

(** ** The specification's words

    Definitions that follow the text of the specification, to be compared
    with the ones taken from the source. *)
Module Spec.
Import Unicode Re.

(** §4.1 step 5, the synonym table. *)
Definition beginner_words : list str :=
  [lit "beginner"; lit "basic"; lit "elementary"; lit "novice";
   lit "fundamental"].
Definition intermediate_words : list str :=
  [lit "intermediate"; lit "medium"; lit "mid"; lit "mid level";
   lit "mid-level"].
Definition advanced_words : list str :=
  [lit "advanced"; lit "advance"; lit "expert"; lit "fluent";
   lit "proficient"; lit "professional"].

Definition synonym (t : str) : option str :=
  if bool_decide (t ∈ beginner_words) then Some (lit "Beginner")
  else if bool_decide (t ∈ intermediate_words) then Some (lit "Intermediate")
  else if bool_decide (t ∈ advanced_words) then Some (lit "Advanced")
  else None.

(** "letter a followed by one digit 1–5" *)
Definition is_a_level (t : str) : bool :=
  match t with
  | [a; d] => bool_decide (a = "a"%char) && between 49 53 d
  | _ => false
  end.

(** §4.1 step 5: case-fold and trim; an a-level is returned uppercased;
    otherwise the synonym table decides; anything else is absent. *)
Definition normalize (token : str) : pyval :=
  let t := Str.strip (Str.lower token) in
  if is_a_level t then PStr (Str.upper t)
  else match synonym t with
       | Some canonical => PStr canonical
       | None => PNone
       end.

(** "case-fold": a character of a token and a character of a spelling
    agree up to case when they are equal, or when the first is the capital
    letter A-Z of the second. *)
Definition same_up_to_case (x y : char) : bool :=
  bool_decide (x = y) || (between 65 90 x && (code x + 32 =? code y)%N).

(** The canonical proficiency levels. *)
Definition canonical : list str :=
  [lit "A1"; lit "A2"; lit "A3"; lit "A4"; lit "A5";
   lit "Beginner"; lit "Intermediate"; lit "Advanced"].

(** §4.1 step 3: the marker found by the first pattern that matches, if
    any pattern does. *)
Fixpoint first_marker (patterns : list regex) (s : str) : option pyval :=
  match patterns with
  | [] => None
  | p :: rest =>
      match Re.search true p s with
      | Some m => Some (Clean.group m)
      | None => first_marker rest s
      end
  end.

Definition marker (lang : str) : option pyval :=
  first_marker Clean.proficiency_patterns (Str.strip (Str.lower lang)).

(** §4.1 step 4 as worded: the marker decides whenever one was extracted;
    the entry's own field is used otherwise. *)
Definition final_proficiency (lang_obj : dict) (lang : str) : pyval :=
  match marker lang with
  | Some mk => Clean.normalize_proficiency mk
  | None => Clean.normalize_proficiency (get "proficiency" lang_obj)
  end.

(** §4.1 step 3 as worded: "the matched substring is removed": the text
    around the match that [re.search] found. *)
Fixpoint remove_matched (patterns : list regex) (s : str) : str :=
  match patterns with
  | [] => s
  | p :: rest =>
      match Re.search true p s with
      | Some m => before m ++ after m
      | None => remove_matched rest s
      end
  end.

Definition cleaned_name (lang : str) : str :=
  Str.strip (remove_matched Clean.proficiency_patterns
               (Str.strip (Str.lower lang))).

(** The connective as the pattern of the source writes it, at the head of
    [s]: a whitespace character, the word in lowercase, a whitespace
    character. *)
Definition connective_here (s : str) : bool :=
  match s with
  | x :: a :: n :: d :: y :: _ =>
      is_space x && bool_decide ([a; n; d] = lit "and") && is_space y
  | _ => false
  end.

(** The connective occurs somewhere in [s]. *)
Fixpoint has_connective (s : str) : bool :=
  connective_here s
  || match s with
     | _ :: t => has_connective t
     | [] => false
     end.

(** §4.1 step 2 as worded: the connective is matched whatever its case. *)
Definition and_split (item : str) : list str :=
  map Str.strip (Re.split true Clean.and_pattern item).

(** §4.1 step 7 for one record: nothing when the emitted sequence equals
    the original one, one update carrying the whole new array otherwise. *)
Definition update_of (d : Clean.doc) : list (Z * list dict) :=
  match Clean.languages d with
  | None => []
  | Some current =>
      if decide (Clean.cleaned_languages current = current) then []
      else [(Clean.doc_id d, Clean.cleaned_languages current)]
  end.

(** §4.2, the normalize-for-comparison step as worded: lowercase; strip
    every character that is not alphanumeric or whitespace; collapse the
    runs of whitespace; trim; fold to ASCII. *)
Definition comparison_key (skill : str) : str :=
  let lowered := Str.lower skill in
  let stripped := filter (λ c, is_alnum c || is_space c) lowered in
  let collapsed := Re.sub false (Plus Space) (lit " ") stripped in
  CleanSkills.ascii_fold (Str.strip collapsed).

(** §4.2, the validity predicate on the normalized form. *)
Definition valid_key (normalized : str) : Prop :=
  normalized ≠ []
  ∧ ¬ Forall (λ c, is_decimal c = true) normalized
  ∧ 2 ≤ length normalized.

End Spec.

(** ** Deduplication: the notions of the claim and the loop invariant *)
Module Dedup.
Import CleanSkills.

(** The comparison key of a raw skill. *)
Definition key (skill : cell) : str :=
  normalize_for_comparison (clean_skill_name skill).

(** The skill passes [is_valid_skill]. *)
Definition valid (skill : cell) : Prop :=
  is_valid_skill (clean_skill_name skill) (key skill) = true.

(** [x] is the cleaned form of a valid skill of the input, and no valid
    skill before that one has the same key. *)
Definition first_of (skills : list cell) (x : str) : Prop :=
  ∃ before skill after,
    skills = before ++ skill :: after
    ∧ clean_skill_name skill = x
    ∧ valid skill
    ∧ ∀ other, other ∈ before → valid other → key other ≠ key skill.

(** What holds of [normalized_map] and [cleaned_skills] once the skills
    [seen] have been processed. *)
Record invariant (seen : list cell) (normalized_map : gmap str str)
    (cleaned_skills : list str) : Prop := Invariant {
  inv_map : ∀ k v, normalized_map !! k = Some v →
            v ∈ cleaned_skills ∧ normalize_for_comparison v = k;
  inv_list : ∀ x, x ∈ cleaned_skills →
             normalized_map !! normalize_for_comparison x = Some x;
  inv_nodup : NoDup cleaned_skills;
  inv_keys : ∀ k, is_Some (normalized_map !! k)
             ↔ ∃ skill, skill ∈ seen ∧ valid skill ∧ key skill = k;
  inv_first : ∀ x, x ∈ cleaned_skills → first_of seen x
}.

End Dedup.

(** ** Sample inputs *)
Module Samples.
Import Clean.

(** A candidate with two parentheses. *)
Definition french_b2_c1 : str := lit "french (b2) (c1)".

(** "Café", with U+00E9 as its last character. *)
Definition cafe : str := lit "Caf" ++ [Unicode.of_code 233].

(** A column of skills: a bulleted one, the same again in another spelling,
    an empty cell, two that are not valid, and two spellings of "café". *)
Definition sample_skills : list CleanSkills.cell :=
  [CleanSkills.CStr (lit "- Python"); CleanSkills.CStr (lit "python ");
   CleanSkills.COther; CleanSkills.CStr (lit "C++");
   CleanSkills.CStr (lit "12"); CleanSkills.CStr cafe;
   CleanSkills.CStr (lit "CAFE ")].

(** An entry whose marker is not a level, with a level in its own field. *)
Definition french_b2_fluent : dict :=
  {[ "language" := PStr (lit "french (b2)");
     "proficiency" := PStr (lit "fluent") ]}.

(** An entry with a parenthesis and a hyphen marker. *)
Definition french_b2_basic : dict :=
  {[ "language" := PStr (lit "french (b2) - basic") ]}.

(** What is emitted for it. *)
Definition french_basic_left : dict :=
  {[ "language" := PStr (lit "french  - basic"); "proficiency" := PNone ]}.

(** An entry that is already in its cleaned form. *)
Definition english_clean : dict :=
  {[ "language" := PStr (lit "english"); "proficiency" := PNone ]}.

(** An entry with an uppercase letter and no proficiency field. *)
Definition english_raw : dict :=
  {[ "language" := PStr (lit "English") ]}.

(** An entry whose name is the uppercase letter U+1D400, which has no
    lowercase form. *)
Definition bold_a_entry : dict :=
  {[ "language" := PStr [BoldA]; "proficiency" := PNone ]}.

(** An environment in which [MongoClient] raises. *)
Definition unreachable_store : environment :=
  Environment (Return ()) (Raise (PyMongoError "invalid URI"))
    (Return 0) (λ _, Return []) None.

End Samples.

(** ** Notions used by the further properties *)
Module Notions.
Import Unicode Clean CleanSkills.



(** The cleaned array of the document differs from the stored one. *)
Definition dirty (d : doc) : Prop :=
  match languages d with
  | Some current => cleaned_languages current ≠ current
  | None => False
  end.

Global Instance dirty_dec d : Decision (dirty d).
Proof. unfold dirty. destruct (languages d); apply _. Defined.

(** The [update_one] call that a dirty document gets: its [_id] and its
    cleaned array. *)
Definition update_for (d : doc) : Z * list dict :=
  (doc_id d, cleaned_languages (default [] (languages d))).

(** [find] as pymongo answers it: a negative batch size is refused with
    [ValueError], any other gives the cursor. *)
Definition pymongo_find (docs : list doc) (batch_size : Z)
    : outcome (list doc) :=
  if bool_decide (batch_size < 0)%Z
  then Raise (ValueError "batch_size must be >= 0")
  else Return docs.

(** An environment in which the logger and the client answer, the store
    counts [total] documents and the cursor yields [docs], then raises
    [err] if there is one. *)
Definition answering (total : nat) (docs : list doc) (err : option exn)
    : environment :=
  Environment (Return ()) (Return ()) (Return total) (pymongo_find docs) err.

(** Two documents: one already clean, one with an uppercase letter. *)
Definition two_docs : list doc :=
  [Doc 1 (Some [Samples.english_clean]); Doc 2 (Some [Samples.english_raw])].

(** Three documents: the third also has an uppercase letter. *)
Definition three_docs : list doc :=
  two_docs ++ [Doc 3 (Some [Samples.english_raw])].

(** Of [n] documents, how many the loop over the cursor has handed to
    [process_batch] when the cursor is exhausted: those that fill whole
    batches of [batch_size] (none when the size is not positive, as the
    test [len(current_batch) == batch_size] then never holds). *)
Definition full_batches (batch_size : Z) (n : nat) : nat :=
  if bool_decide (0 < batch_size)%Z
  then n / Z.to_nat batch_size * Z.to_nat batch_size
  else 0.

(** A store that has received nothing and refuses nothing. *)
Definition fresh : collection := Collection [] (λ _, false).

(** The characters of the class of [clean_skill_name]. *)
Definition bullet_or_space (c : char) : bool :=
  is_space c
  || bool_decide (c ∈ ["-"%char; "*"%char; "+"%char; ">"%char; middle_dot]).

(** The characters that [re.IGNORECASE] compares through their lowercase
    forms alone: all but U+017F and U+0131. *)
Definition usual_case (c : char) : bool :=
  match c with
  | LongS | DotlessI => false
  | _ => true
  end.



(** The words that the group of the hyphen, comma and end patterns
    admits, [(beginner|basic|intermediate|advance[d]?|a[1-5])]. *)
Definition level_words : list str :=
  [lit "beginner"; lit "basic"; lit "intermediate"; lit "advance";
   lit "advanced"; lit "a1"; lit "a2"; lit "a3"; lit "a4"; lit "a5"].

(** The three patterns that end with that group. *)
Definition word_patterns : list Re.regex :=
  [after_hyphen; after_comma; at_end].

End Notions.

(** * Properties *)

(** ** Characters and strings *)
Module StrFacts.
Import Unicode Str.

(** A closed decidable statement, settled by evaluating its decision. *)
Ltac by_eval := apply (bool_decide_eq_true_1 _); vm_compute; exact eq_refl.

(** Case analysis over the characters of the alphabet. *)
Ltac each_char c := destruct c as [[[] [] [] [] [] [] [] []] | | |].

Lemma lower_char_not_upper c : has_lower (lower_char c) = false.
Proof. each_char c; reflexivity. Qed.

Lemma lower_not_upper s : Forall (λ c, has_lower c = false) (lower s).
Proof.
  unfold lower. induction s as [|c s IH]; simpl; constructor; auto.
  apply lower_char_not_upper.
Qed.

Lemma lstrip_split s :
  ∃ l, s = l ++ lstrip s ∧ Forall (λ c, is_space c = true) l.
Proof.
  induction s as [|c s [l [E F]]]; simpl.
  - exists []. split; [done | constructor].
  - destruct (is_space c) eqn:Hc.
    + exists (c :: l). split; [simpl; congruence | by constructor].
    + exists []. split; [done | constructor].
Qed.

Lemma lstrip_head c s t : lstrip s = c :: t → is_space c = false.
Proof.
  induction s as [|x s IH]; simpl; [done |].
  destruct (is_space x) eqn:Hx; [done |]. intros [= -> _]. done.
Qed.

Lemma lstrip_id c s : is_space c = false → lstrip (c :: s) = c :: s.
Proof. intros H. simpl. by rewrite H. Qed.

Lemma rstrip_split s :
  ∃ t, s = rstrip s ++ t ∧ Forall (λ c, is_space c = true) t.
Proof.
  unfold rstrip. destruct (lstrip_split (rev s)) as [l [E F]].
  exists (rev l). split.
  - rewrite <- rev_app_distr, <- E. by rewrite rev_involutive.
  - by apply Forall_rev.
Qed.

Lemma rstrip_last s t c : rstrip s = t ++ [c] → is_space c = false.
Proof.
  unfold rstrip. intros H.
  assert (lstrip (rev s) = c :: rev t) as H'.
  { rewrite <- (rev_involutive (lstrip (rev s))), H.
    by rewrite rev_app_distr. }
  by apply lstrip_head in H'.
Qed.

Lemma rstrip_id s c : is_space c = false → rstrip (s ++ [c]) = s ++ [c].
Proof.
  intros H. unfold rstrip. rewrite rev_app_distr. simpl.
  rewrite H. simpl. by rewrite rev_involutive.
Qed.

Lemma rstrip_nil : rstrip [] = [].
Proof. reflexivity. Qed.

(** [strip] removes a run of whitespace at each end. *)
Lemma strip_split s :
  ∃ l t, s = l ++ strip s ++ t
         ∧ Forall (λ c, is_space c = true) l
         ∧ Forall (λ c, is_space c = true) t.
Proof.
  unfold strip. destruct (lstrip_split s) as [l [E F]].
  destruct (rstrip_split (lstrip s)) as [t [E' F']].
  exists l, t. split; [| done]. rewrite <- E'. exact E.
Qed.

Lemma strip_last s t c : strip s = t ++ [c] → is_space c = false.
Proof. unfold strip. apply rstrip_last. Qed.

(** A string that neither starts nor ends with whitespace is left as it
    is. *)
Lemma strip_id s :
  (∀ c t, s = c :: t → is_space c = false) →
  (∀ c t, s = t ++ [c] → is_space c = false) →
  strip s = s.
Proof.
  intros Hh Hl. unfold strip.
  destruct s as [|c s]; [reflexivity |].
  rewrite lstrip_id by eauto.
  destruct (exists_last (l := c :: s)) as [t [x E]]; [done |].
  rewrite E. apply rstrip_id. eauto.
Qed.


Lemma strip_Forall (P : char → Prop) s : Forall P s → Forall P (strip s).
Proof.
  destruct (strip_split s) as [l [t [E _]]]. intros H.
  rewrite E in H. apply Forall_app in H as [_ H].
  by apply Forall_app in H as [H _].
Qed.

Lemma lower_char_idem c : lower_char (lower_char c) = lower_char c.
Proof. each_char c; reflexivity. Qed.

Lemma lower_idem s : lower (lower s) = lower s.
Proof.
  unfold lower. rewrite map_map. apply map_ext. apply lower_char_idem.
Qed.

Lemma is_space_lower c : is_space (lower_char c) = is_space c.
Proof. each_char c; reflexivity. Qed.

Lemma lstrip_lower s : lstrip (lower s) = lower (lstrip s).
Proof.
  induction s as [|c s IH]; [done |]. simpl. rewrite is_space_lower.
  by destruct (is_space c).
Qed.

Lemma strip_lower s : strip (lower s) = lower (strip s).
Proof.
  unfold strip, rstrip. rewrite lstrip_lower. unfold lower at 1.
  rewrite <- map_rev. fold (lower (rev (lstrip s))).
  rewrite lstrip_lower. unfold lower. by rewrite map_rev.
Qed.

Lemma lstrip_spaces l s :
  Forall (λ c, is_space c = true) l → lstrip (l ++ s) = lstrip s.
Proof. induction 1 as [|c l Hc _ IH]; [done |]. simpl. by rewrite Hc. Qed.

Lemma rstrip_spaces s r :
  Forall (λ c, is_space c = true) r → rstrip (s ++ r) = rstrip s.
Proof.
  intros Hr. unfold rstrip. rewrite rev_app_distr.
  by rewrite lstrip_spaces by (by apply Forall_rev).
Qed.

Lemma lstrip_all_spaces r :
  Forall (λ c, is_space c = true) r → lstrip r = [].
Proof. intros H. rewrite <- (app_nil_r r). by rewrite lstrip_spaces. Qed.

Lemma strip_spaces_right s r :
  Forall (λ c, is_space c = true) r → strip (s ++ r) = strip s.
Proof.
  intros Hr. unfold strip. induction s as [|c s IH].
  - simpl. by rewrite lstrip_all_spaces.
  - cbn [app lstrip]. destruct (is_space c); [exact IH |].
    change (c :: s ++ r) with ((c :: s) ++ r). by apply rstrip_spaces.
Qed.

(** Whitespace around a string does not count for [strip]. *)
Lemma strip_padded l s r :
  Forall (λ c, is_space c = true) l → Forall (λ c, is_space c = true) r →
  strip (l ++ s ++ r) = strip s.
Proof.
  intros Hl Hr. unfold strip at 1. rewrite lstrip_spaces by done.
  by apply strip_spaces_right.
Qed.

Lemma strip_head s c t : strip s = c :: t → is_space c = false.
Proof.
  unfold strip. intros H.
  destruct (rstrip_split (lstrip s)) as (r & E & _). rewrite H in E.
  by apply (lstrip_head c s (t ++ r)).
Qed.

Lemma strip_idem s : strip (strip s) = strip s.
Proof.
  apply strip_id; intros c t E.
  - by apply (strip_head s c t).
  - by apply (strip_last s t c).
Qed.

(** The order of [list.sort] on strings is total and transitive. *)
Global Instance le_total : Total le.
Proof.
  intros a. unfold le. induction a as [|x a IH]; intros [|y b]; simpl; auto.
  destruct (N.ltb_spec (code x) (code y)); auto.
  destruct (N.ltb_spec (code y) (code x)); auto.
Qed.

Lemma code_inj x y : code x = code y → x = y.
Proof.
  intros H. by rewrite <- (of_code_code x), <- (of_code_code y), H.
Qed.

Lemma le_antisym a b : le a b → le b a → a = b.
Proof.
  unfold le. revert b. induction a as [|x a IH]; intros [|y b]; simpl;
    try done.
  destruct (N.ltb_spec (code x) (code y)), (N.ltb_spec (code y) (code x));
    try done; try lia.
  intros Hab Hba. f_equal; [apply code_inj; lia | by apply IH].
Qed.

Global Instance le_trans : Transitive le.
Proof.
  intros a. unfold le.
  induction a as [|x a IH]; intros [|y b] [|z c]; simpl; auto; try done.
  destruct (N.ltb_spec (code x) (code y)), (N.ltb_spec (code y) (code z)),
    (N.ltb_spec (code x) (code z)); try done; try lia;
    destruct (N.ltb_spec (code y) (code x)), (N.ltb_spec (code z) (code y)),
      (N.ltb_spec (code z) (code x)); try done; try lia.
  apply IH.
Qed.

End StrFacts.

(** ** The matcher *)
Module ReFacts.
Import Unicode Re.

Lemma erase_app_drop P m s o :
  Forall P m → erase P s o → erase P (m ++ s) o.
Proof.
  induction 1 as [|x m Hx _ IH]; simpl; [done |].
  intros H. apply erase_drop; auto.
Qed.

Lemma erase_Forall P (Q : char → Prop) s o :
  erase P s o → Forall Q s → Forall Q o.
Proof.
  induction 1 as [|x s o _ IH|x s o _ _ IH]; intros H;
    [done | |]; inversion H; subst; [constructor |]; auto.
Qed.

Lemma erase_mono (P Q : char → Prop) s o :
  (∀ x, P x → Q x) → erase P s o → erase Q s o.
Proof. intros HPQ. induction 1; constructor; auto. Qed.

Section Reads.
Context {R : Type}.
Variable ic : bool.

Lemma star_reads c (k : str → option R) s res :
  star ic c k s = Some res →
  ∃ m rest, s = m ++ rest
            ∧ Forall (λ x, accepts ic c x = true) m ∧ k rest = Some res.
Proof.
  revert res. induction s as [|x s IH]; simpl; intros res H.
  - exists [], []. auto.
  - destruct (accepts ic c x) eqn:Hx; [| exists [], (x :: s); auto].
    destruct (star ic c k s) as [r|] eqn:Hs.
    + destruct (IH r eq_refl) as (m & rest & -> & Hm & Hk).
      exists (x :: m), rest. simplify_eq. auto.
    + exists [], (x :: s). auto.
Qed.

Lemma lazy_star_reads c (k : str → option R) s res :
  lazy_star ic c k s = Some res →
  ∃ m rest, s = m ++ rest
            ∧ Forall (λ x, accepts ic c x = true) m ∧ k rest = Some res.
Proof.
  revert res. induction s as [|x s IH]; simpl; intros res H.
  - destruct (k []) eqn:Hk; [| done]. exists [], []. simplify_eq. auto.
  - destruct (k (x :: s)) eqn:Hk.
    { exists [], (x :: s). simplify_eq. auto. }
    destruct (accepts ic c x) eqn:Hx; [| done].
    destruct (IH res H) as (m & rest & -> & Hm & Hk').
    exists (x :: m), rest. auto.
Qed.

Lemma plus_reads c (k : str → option R) s res :
  plus ic c k s = Some res →
  ∃ m rest, s = m ++ rest ∧ m ≠ []
            ∧ Forall (λ x, accepts ic c x = true) m ∧ k rest = Some res.
Proof.
  destruct s as [|x s]; simpl; [done |].
  destruct (accepts ic c x) eqn:Hx; [| done]. intros H.
  destruct (star_reads _ _ _ _ H) as (m & rest & -> & Hm & Hk).
  exists (x :: m), rest. auto.
Qed.

(** Whatever [exec] hands to its continuation is a suffix of what it was
    given, and the characters in between were accepted by the pattern. *)
Lemma exec_reads n0 r : ∀ (k : str → option str → option R) s g res,
  exec ic n0 r k s g = Some res →
  ∃ m rest g', s = m ++ rest
               ∧ Forall (λ x, may_read ic r x = true) m
               ∧ k rest g' = Some res.
Proof.
  induction r as [|c|a IHa b IHb|a IHa b IHb|a IHa|c|c|c|a IHa| |];
    simpl; intros k s g res H.
  - exists [], s, g. auto.
  - destruct s as [|x s]; [done |].
    destruct (accepts ic c x) eqn:Hx; [| done].
    exists [x], s, g. auto.
  - destruct (IHa _ _ _ _ H) as (m1 & r1 & g1 & -> & Hm1 & H1).
    destruct (IHb _ _ _ _ H1) as (m2 & r2 & g2 & -> & Hm2 & H2).
    exists (m1 ++ m2), r2, g2. rewrite <- app_assoc. split; [done |].
    split; [| done]. apply Forall_app. split.
    + eapply Forall_impl; [exact Hm1 |]. simpl. intros x ->. done.
    + eapply Forall_impl; [exact Hm2 |]. simpl. intros x ->.
      apply orb_true_r.
  - destruct (exec ic n0 a k s g) eqn:Ha.
    + destruct (IHa _ _ _ _ Ha) as (m & rest & g' & -> & Hm & Hk).
      exists m, rest, g'. simplify_eq. split; [done |]. split; [| done].
      eapply Forall_impl; [exact Hm |]. simpl. intros x ->. done.
    + destruct (IHb _ _ _ _ H) as (m & rest & g' & -> & Hm & Hk).
      exists m, rest, g'. split; [done |]. split; [| done].
      eapply Forall_impl; [exact Hm |]. simpl. intros x ->.
      apply orb_true_r.
  - destruct (exec ic n0 a k s g) eqn:Ha.
    + destruct (IHa _ _ _ _ Ha) as (m & rest & g' & -> & Hm & Hk).
      exists m, rest, g'. simplify_eq. auto.
    + exists [], s, g. auto.
  - destruct (star_reads _ _ _ _ H) as (m & rest & -> & Hm & Hk).
    exists m, rest, g. auto.
  - destruct (plus_reads _ _ _ _ H) as (m & rest & -> & _ & Hm & Hk).
    exists m, rest, g. auto.
  - destruct (lazy_star_reads _ _ _ _ H) as (m & rest & -> & Hm & Hk).
    exists m, rest, g. auto.
  - destruct (IHa _ _ _ _ H) as (m & rest & g' & -> & Hm & Hk).
    eauto 10.
  - case_bool_decide; [| done]. exists [], s, g. auto.
  - exists [], s, g. split; [done |]. split; [constructor |].
    destruct s as [|c [|? ?]]; try done. by case_bool_decide.
Qed.
End Reads.

(** A greedy repetition in front of a character it cannot read: the
    whole run is read when the continuation accepts what follows. *)
Lemma star_all {R} ic c (k : str → option R) ws rest res :
  Forall (λ x, accepts ic c x = true) ws →
  (∀ x t, rest = x :: t → accepts ic c x = false) →
  k rest = Some res →
  star ic c k (ws ++ rest) = Some res.
Proof.
  intros Hws Hrest Hk. induction Hws as [|x ws Hx _ IH]; simpl.
  - destruct rest as [|y t]; simpl; [done |].
    by rewrite (Hrest y t eq_refl).
  - by rewrite Hx, IH.
Qed.

(** It fails when the continuation refuses every place it can stop at. *)
Lemma star_none {R} ic c (k : str → option R) ws rest :
  Forall (λ x, accepts ic c x = true) ws →
  (∀ x t, rest = x :: t → accepts ic c x = false) →
  k rest = None →
  (∀ x t, accepts ic c x = true → k (x :: t) = None) →
  star ic c k (ws ++ rest) = None.
Proof.
  intros Hws Hrest Hk Hsp. induction Hws as [|x ws Hx _ IH]; simpl.
  - destruct rest as [|y t]; simpl; [done |].
    by rewrite (Hrest y t eq_refl).
  - rewrite Hx, IH. by apply Hsp.
Qed.

Lemma match_here_reads ic n0 r s rest g :
  match_here ic n0 r s = Some (rest, g) →
  ∃ m, s = m ++ rest ∧ Forall (λ x, may_read ic r x = true) m.
Proof.
  unfold match_here. intros H.
  destruct (exec_reads _ _ _ _ _ _ _ H) as (m & rest' & g' & -> & Hm & Hk).
  exists m. by simplify_eq.
Qed.


Lemma length_read (m rest : str) : length (m ++ rest) - length rest = length m.
Proof. rewrite length_app. lia. Qed.

(** *** [re.sub] *)

Lemma sub_from_skip ic n0 r repl m t :
  sub_from ic n0 r repl (length m) (m ++ t) = sub_from ic n0 r repl 0 t.
Proof. induction m as [|x m IH]; simpl; [by destruct t | done]. Qed.

(** At a place where the pattern does not match, the character is kept. *)
Lemma sub_from_keep ic n0 r repl x s :
  match_here ic n0 r (x :: s) = None →
  sub_from ic n0 r repl 0 (x :: s) = x :: sub_from ic n0 r repl 0 s.
Proof. intros H. simpl. by rewrite H. Qed.

(** At a non-empty match, the replacement is written and the scan resumes
    after the match. *)
Lemma sub_from_match ic n0 r repl x m rest g :
  match_here ic n0 r (x :: m ++ rest) = Some (rest, g) →
  sub_from ic n0 r repl 0 (x :: m ++ rest)
  = repl ++ sub_from ic n0 r repl 0 rest.
Proof.
  intros H. cbn [sub_from]. rewrite H.
  change (x :: m ++ rest) with ((x :: m) ++ rest). rewrite length_read.
  simpl. by rewrite sub_from_skip.
Qed.

(** With an empty replacement, [re.sub] only deletes, and only characters
    that the pattern can read. *)
Lemma sub_from_erase ic n0 r : ∀ (n : nat) (s : str), length s ≤ n →
  erase (λ x, may_read ic r x = true) s (sub_from ic n0 r [] 0 s).
Proof.
  induction n as [|n IH]; intros s Hn.
  - destruct s; [| simpl in Hn; lia]. simpl.
    destruct (match_here ic n0 r []); constructor.
  - destruct s as [|x s].
    { simpl. destruct (match_here ic n0 r []); constructor. }
    simpl in Hn.
    destruct (match_here ic n0 r (x :: s)) as [[rest g]|] eqn:Hm.
    + destruct (match_here_reads _ _ _ _ _ _ Hm) as (m & E & Fm).
      destruct m as [|y m].
      * simpl in E. subst rest. cbn [sub_from]. rewrite Hm.
        rewrite Nat.sub_diag. simpl. apply erase_keep, IH. lia.
      * simpl in E. injection E as <- ->.
        rewrite (sub_from_match _ _ _ _ _ _ _ _ Hm). simpl.
        apply (erase_app_drop _ (x :: m)); [done |].
        apply IH. rewrite length_app in Hn. lia.
    + rewrite sub_from_keep by done. apply erase_keep, IH. lia.
Qed.

Lemma sub_erase ic r s :
  erase (λ x, may_read ic r x = true) s (sub ic r [] s).
Proof. unfold sub. by apply (sub_from_erase _ _ _ (length s)). Qed.

(** *** [re.split] *)

Lemma split_from_skip ic n0 r cur m t :
  split_from ic n0 r (length m) cur (m ++ t) = split_from ic n0 r 0 cur t.
Proof. induction m as [|x m IH]; simpl; [by destruct t | done]. Qed.

(** At a non-empty match the current piece is closed and the scan resumes
    after the match. *)
Lemma split_from_match ic n0 r cur x m rest g :
  match_here ic n0 r (x :: m ++ rest) = Some (rest, g) →
  split_from ic n0 r 0 cur (x :: m ++ rest)
  = rev cur :: split_from ic n0 r 0 [] rest.
Proof.
  intros H. cbn [split_from]. rewrite H.
  change (x :: m ++ rest) with ((x :: m) ++ rest). rewrite length_read.
  simpl. by rewrite split_from_skip.
Qed.

(** Characters at which the pattern does not match go to the current
    piece. *)
Lemma split_from_keep ic n0 r cur a rest :
  (∀ l x t, a = l ++ x :: t → match_here ic n0 r (x :: t ++ rest) = None) →
  split_from ic n0 r 0 cur (a ++ rest)
  = split_from ic n0 r 0 (rev a ++ cur) rest.
Proof.
  revert cur. induction a as [|x a IH]; intros cur Ha; [done |].
  simpl. rewrite (Ha [] x a eq_refl). rewrite IH.
  - by rewrite <- app_assoc.
  - intros l y t ->. by apply (Ha (x :: l) y t).
Qed.

(** *** [re.search] *)

Lemma search_from_None ic n0 r pre s :
  search_from ic n0 r pre s = None ↔
  ∀ l t, s = l ++ t → match_here ic n0 r t = None.
Proof.
  revert pre. induction s as [|x s IH]; intros pre; simpl.
  - destruct (match_here ic n0 r []) as [[? ?]|] eqn:H; split; try done.
    + intros H'. by rewrite (H' [] []) in H.
    + intros _ l t E. symmetry in E. apply app_eq_nil in E as [_ ->]. done.
  - destruct (match_here ic n0 r (x :: s)) as [[? ?]|] eqn:H; split;
      try done.
    + intros H'. by rewrite (H' [] (x :: s)) in H.
    + intros Hs [|y l] t E; simpl in E; [by subst |].
      injection E as <- ->. by apply (proj1 (IH _) Hs l t).
    + intros H'. apply IH. intros l t ->. by apply (H' (x :: l) t).
Qed.

Lemma search_None ic r s :
  search ic r s = None ↔
  ∀ l t, s = l ++ t → match_here ic (length s) r t = None.
Proof. apply search_from_None. Qed.

End ReFacts.

(** ** [clean.py]: proficiency levels and extraction *)
Module CleanFacts.
Import Unicode Re Clean StrFacts ReFacts Samples.

Local Arguments code : simpl never.
Local Arguments between : simpl never.

(** [^a[1-5]$] on a trimmed string: exactly "a" and a digit 1-5. *)
Lemma a_level_match (prof : str) :
  (∀ t c, prof = t ++ [c] → is_space c = false) →
  is_Some (Re.match_ false a_level prof) ↔ Spec.is_a_level prof = true.
Proof.
  intros Hlast. unfold Re.match_, match_here, a_level.
  destruct prof as [|c1 [|c2 [|c3 [|c4 r]]]]; simpl;
    try (assert (is_space c3 = false) as Hc3
           by apply (Hlast [c1; c2] c3 eq_refl));
    repeat case_bool_decide; subst; try done;
    rewrite ?orb_false_r; change (code "1") with 49%N;
    change (code "5") with 53%N;
    try destruct (between 49 53 c2); simpl;
    split; try done; try by intros [? ?].
Qed.

Ltac table_key k key :=
  destruct (decide (lit key = k)) as [<-|?];
  [vm_compute; reflexivity | rewrite lookup_insert_ne by assumption].

(** The dict of the source and the table of the specification agree. *)
Lemma proficiency_mapping_synonym (k : str) :
  proficiency_mapping !! k = Spec.synonym k.
Proof.
  unfold proficiency_mapping, list_to_map. cbn [fold_right fst snd].
  table_key k "beginner". table_key k "basic". table_key k "elementary".
  table_key k "novice". table_key k "fundamental".
  table_key k "intermediate". table_key k "medium". table_key k "mid".
  table_key k "mid level". table_key k "mid-level".
  table_key k "advanced". table_key k "advance". table_key k "expert".
  table_key k "fluent". table_key k "proficient".
  table_key k "professional".
  rewrite lookup_empty. unfold Spec.synonym.
  rewrite !bool_decide_eq_false_2; [done | ..];
    repeat (apply not_elem_of_cons; split; [congruence |]);
    apply not_elem_of_nil.
Qed.

Lemma normalize_proficiency_spec (token : str) :
  normalize_proficiency (PStr token) = Spec.normalize token.
Proof.
  unfold normalize_proficiency, Spec.normalize.
  destruct token as [|c token]; [by vm_compute |].
  cbn [Str.truthy negb].
  set (prof := Str.strip (Str.lower (c :: token))).
  pose proof (a_level_match prof (strip_last _)) as Ha.
  rewrite proficiency_mapping_synonym.
  destruct (Re.match_ false a_level prof) as [m|];
    destruct (Spec.is_a_level prof); try done.
  - by assert (false = true) by (apply Ha; eauto).
  - assert (is_Some (@None found)) as [? ?] by by apply Ha. done.
Qed.

Lemma same_up_to_case_lower x y :
  Spec.same_up_to_case x y = true → lower_char y = y → lower_char x = y.
Proof.
  unfold Spec.same_up_to_case.
  intros [->%bool_decide_eq_true | [Hx Hc]%andb_true_iff]%orb_true_iff Hy;
    [done |].
  apply N.eqb_eq in Hc. unfold lower_char, has_lower. rewrite Hx. cbn [orb].
  rewrite Hc. apply of_code_code.
Qed.

Lemma same_up_to_case_lower_str token word :
  Forall2 (λ x y, Spec.same_up_to_case x y = true) token word →
  Forall (λ y, lower_char y = y) word → Str.lower token = word.
Proof.
  induction 1 as [|x y token word Hxy _ IH]; [done |].
  intros [Hy Hw]%Forall_cons. unfold Str.lower in *. cbn [map].
  by rewrite (same_up_to_case_lower x y), IH.
Qed.

(** A token that is a spelling up to case, with whitespace around it,
    normalises as the spelling does. *)
Lemma normalize_padded_spelling (l r token word : str) :
  Forall (λ c, is_space c = true) l → Forall (λ c, is_space c = true) r →
  Forall2 (λ x y, Spec.same_up_to_case x y = true) token word →
  Forall (λ y, lower_char y = y) word →
  normalize_proficiency (PStr (l ++ token ++ r))
  = normalize_proficiency (PStr word).
Proof.
  intros Hl Hr Hsame Hword. rewrite !normalize_proficiency_spec.
  unfold Spec.normalize. rewrite !strip_lower, strip_padded by done.
  rewrite <- !strip_lower.
  rewrite (same_up_to_case_lower_str token word) by done.
  assert (Str.lower word = word) as ->; [| done].
  clear Hsame. unfold Str.lower.
  induction Hword as [|y w Hy _ IH]; [done |]. cbn [map]. by rewrite Hy, IH.
Qed.

Lemma a_level_shape word :
  Spec.is_a_level word = true →
  ∃ d, word = ["a"%char; d] ∧ d ∈ ["1"; "2"; "3"; "4"; "5"]%char.
Proof.
  destruct word as [|a [|d [|? ?]]]; try done. cbn [Spec.is_a_level].
  intros [->%bool_decide_eq_true Hd]%andb_true_iff. exists d.
  split; [done |]. revert Hd.
  each_char d; vm_compute; intros Hd; try discriminate;
    repeat first [apply list_elem_of_here | apply list_elem_of_further].
Qed.

Lemma synonym_shape word level :
  Spec.synonym word = Some level →
  word ∈ Spec.beginner_words ++ Spec.intermediate_words
         ++ Spec.advanced_words.
Proof.
  unfold Spec.synonym. rewrite !elem_of_app.
  repeat case_bool_decide; try done; auto.
Qed.

(** C9.  Normalisation of a raw proficiency token.  The token is
    case-folded and trimmed: with whitespace around it and in any case,
    "a" followed by a digit 1-5 comes back as "A" and the digit, and a
    spelling of the synonym table comes back as its canonical word; every
    other token gives [None]; no token raises. *)
Theorem normalize_proficiency_token :
  (∀ token : str, normalize_proficiency (PStr token) = Spec.normalize token)
  ∧ (∀ l r token word : str,
       Forall (λ c, is_space c = true) l →
       Forall (λ c, is_space c = true) r →
       Forall2 (λ x y, Spec.same_up_to_case x y = true) token word →
       (Spec.is_a_level word = true →
        normalize_proficiency (PStr (l ++ token ++ r))
        = PStr ("A"%char :: drop 1 word))
       ∧ (∀ level, Spec.synonym word = Some level →
          normalize_proficiency (PStr (l ++ token ++ r)) = PStr level))
  ∧ normalize_proficiency (PStr (lit "a3")) = PStr (lit "A3")
  ∧ normalize_proficiency (PStr (lit " A3  ")) = PStr (lit "A3")
  ∧ normalize_proficiency (PStr (lit "fluent")) = PStr (lit "Advanced")
  ∧ normalize_proficiency (PStr (lit "  FLUENT ")) = PStr (lit "Advanced")
  ∧ normalize_proficiency (PStr (lit "Mid-Level")) = PStr (lit "Intermediate")
  ∧ normalize_proficiency (PStr (lit "a7")) = PNone
  ∧ normalize_proficiency (PStr (lit "A6")) = PNone
  ∧ normalize_proficiency (PStr (lit "b2")) = PNone
  ∧ normalize_proficiency (PStr (lit "a 3")) = PNone
  ∧ normalize_proficiency (PStr []) = PNone.
Proof.
  split; [exact normalize_proficiency_spec |].
  split; [| repeat split; vm_compute; reflexivity].
  intros l r token word Hl Hr Hsame. split.
  - intros (d & -> & Hd)%a_level_shape.
    rewrite (normalize_padded_spelling l r token ["a"%char; d]);
      [| done | done | done |].
    + repeat (apply elem_of_cons in Hd as [-> | Hd];
              [vm_compute; reflexivity |]).
      by apply elem_of_nil in Hd.
    + repeat (apply elem_of_cons in Hd as [-> | Hd];
              [by repeat constructor |]).
      by apply elem_of_nil in Hd.
  - intros level Hlevel. pose proof (synonym_shape _ _ Hlevel) as Hw.
    assert (Forall (λ y, lower_char y = y) word
            ∧ normalize_proficiency (PStr word) = PStr level) as [Hfix Hn].
    { rewrite normalize_proficiency_spec. revert Hlevel.
      unfold Spec.beginner_words, Spec.intermediate_words,
        Spec.advanced_words in Hw. cbn [app] in Hw.
      repeat (apply elem_of_cons in Hw as [-> | Hw];
              [intros Hlevel; split;
               [by repeat constructor
               | revert Hlevel; vm_compute; by intros [= <-]] |]).
      by apply elem_of_nil in Hw. }
    by rewrite (normalize_padded_spelling l r token word).
Qed.

Lemma normalize_proficiency_token_witness :
  normalize_proficiency (PStr (lit "  " ++ lit "A4" ++ lit " "))
  = PStr (lit "A4")
  ∧ normalize_proficiency (PStr (lit " " ++ lit "ExPeRt" ++ lit "  "))
    = PStr (lit "Advanced").
Proof.
  destruct normalize_proficiency_token as (_ & H & _).
  assert (Forall (λ c, is_space c = true) (lit "  ")) as H2
    by (by repeat constructor).
  assert (Forall (λ c, is_space c = true) (lit " ")) as H1
    by (by repeat constructor).
  split.
  - destruct (H (lit "  ") (lit " ") (lit "A4") (lit "a4") H2 H1) as [Ha _];
      [by repeat constructor |].
    by apply Ha.
  - destruct (H (lit " ") (lit "  ") (lit "ExPeRt") (lit "expert") H1 H2)
      as [_ Hs]; [by repeat constructor |].
    by apply Hs.
Defined.

(** What [normalize_proficiency] returns is [None] or a canonical level. *)
Lemma normalize_proficiency_canonical (v : pyval) :
  normalize_proficiency v = PNone
  ∨ ∃ level, level ∈ Spec.canonical ∧ normalize_proficiency v = PStr level.
Proof.
  destruct v as [|token]; [by left |].
  rewrite normalize_proficiency_spec. unfold Spec.normalize.
  destruct (Spec.is_a_level _) eqn:Ha.
  - right. destruct (Str.strip _) as [|a [|d [|? ?]]]; try done.
    simpl in Ha. apply andb_true_iff in Ha as [Ha Hd].
    apply bool_decide_eq_true in Ha as ->.
    eexists. split; [| reflexivity].
    each_char d; vm_compute in Hd; try discriminate; vm_compute;
      do 5 (first [apply list_elem_of_here | apply list_elem_of_further]).
  - unfold Spec.synonym. repeat case_bool_decide; [right .. | by left];
      eexists; (split; [| reflexivity]); unfold Spec.canonical;
      do 8 (first [apply list_elem_of_here | apply list_elem_of_further]).
Qed.

(** A level that was found is a true value: the fallback test
    [if not final_proficiency] fires exactly on [None]. *)
Lemma truthy_normalize_proficiency (v : pyval) :
  truthy (normalize_proficiency v)
  = match normalize_proficiency v with PNone => false | PStr _ => true end.
Proof.
  destruct (normalize_proficiency_canonical v) as [-> | (l & Hl & ->)];
    [done |].
  unfold Spec.canonical in Hl.
  repeat (apply elem_of_cons in Hl as [-> | Hl]; [done |]).
  by apply elem_of_nil in Hl.
Qed.

(** *** The loop over the patterns *)

Lemma try_patterns_marker patterns s :
  (try_patterns patterns s).2 = default PNone (Spec.first_marker patterns s).
Proof.
  induction patterns as [|p ps IH]; simpl; [done |].
  by destruct (Re.search true p s).
Qed.

Lemma try_patterns_first before p after s m :
  Forall (λ q, Re.search true q s = None) before →
  Re.search true p s = Some m →
  try_patterns (before ++ p :: after) s = (Re.sub true p [] s, group m).
Proof.
  intros Hb Hp. induction Hb as [|q before Hq _ IH]; simpl.
  - by rewrite Hp.
  - by rewrite Hq.
Qed.


Lemma extract_proficiency_from_name_eq lang :
  extract_proficiency_from_name lang
  = let r := try_patterns proficiency_patterns (Str.strip (Str.lower lang)) in
    (Str.strip r.1, normalize_proficiency r.2).
Proof.
  unfold extract_proficiency_from_name. by destruct (try_patterns _ _).
Qed.

(** C4 as amended.  The four patterns are tried in this order: the
    parenthesis, the hyphen, the comma, the level word at the end.  The
    first of them that is found in the lowercased, trimmed candidate gives
    the marker (its group 1), and [re.sub] removes every non-overlapping
    occurrence of that pattern, not only the one found; the later patterns
    are not looked at.  If none is found the candidate is kept and no
    marker is extracted. *)
Theorem extract_first_matching_pattern (lang : str) :
  let s := Str.strip (Str.lower lang) in
  let cut p m :=
    (Str.strip (Re.sub true p [] s), normalize_proficiency (group m)) in
  extract_proficiency_from_name lang
  = match Re.search true in_parentheses s with
    | Some m => cut in_parentheses m
    | None =>
    match Re.search true after_hyphen s with
    | Some m => cut after_hyphen m
    | None =>
    match Re.search true after_comma s with
    | Some m => cut after_comma m
    | None =>
    match Re.search true at_end s with
    | Some m => cut at_end m
    | None => (Str.strip s, PNone)
    end end end end.
Proof.
  intros s cut. rewrite extract_proficiency_from_name_eq. fold s.
  unfold proficiency_patterns. cbn [try_patterns].
  destruct (Re.search true in_parentheses s); [done |].
  destruct (Re.search true after_hyphen s); [done |].
  destruct (Re.search true after_comma s); [done |].
  by destruct (Re.search true at_end s).
Qed.

(** The order at work: a parenthesis wins over a hyphen, a hyphen over a
    comma, a comma over a level word at the end, and the pattern that
    lost stays in the name. *)
Lemma extract_first_matching_pattern_witness :
  extract_proficiency_from_name (lit "french - basic (b2)")
  = (lit "french - basic", PNone)
  ∧ extract_proficiency_from_name (lit "french, basic - a2")
    = (lit "french, basic", PStr (lit "A2"))
  ∧ extract_proficiency_from_name (lit "french, basic advanced")
    = (lit "french advanced", PStr (lit "Beginner"))
  ∧ extract_proficiency_from_name french_b2_c1 = (lit "french", PNone).
Proof.
  pose proof (extract_first_matching_pattern (lit "french - basic (b2)"))
    as H1.
  pose proof (extract_first_matching_pattern (lit "french, basic - a2"))
    as H2.
  pose proof (extract_first_matching_pattern (lit "french, basic advanced"))
    as H3.
  pose proof (extract_first_matching_pattern french_b2_c1) as H4.
  cbn zeta in H1, H2, H3, H4.
  split; [rewrite H1; by_eval |]. split; [rewrite H2; by_eval |].
  split; [rewrite H3; by_eval | rewrite H4; by_eval].
Defined.

(** C4 as stated fails: removing exactly the matched substring would
    leave the second parenthesis in the name; the code removes both. *)
Lemma extract_removes_every_occurrence :
  (extract_proficiency_from_name french_b2_c1).1 = lit "french"
  ∧ Spec.cleaned_name french_b2_c1 = lit "french  (c1)"
  ∧ (extract_proficiency_from_name french_b2_c1).1
    ≠ Spec.cleaned_name french_b2_c1.
Proof. repeat split; vm_compute; [reflexivity .. | discriminate]. Qed.

(** *** The emitted proficiency *)

Lemma clean_candidate_entry (lang_obj : dict) (lang : str) (d : dict) :
  d ∈ clean_candidate lang_obj lang →
  let e := extract_proficiency_from_name lang in
  d = make_entry e.1
        (if negb (truthy e.2)
         then normalize_proficiency (get "proficiency" lang_obj) else e.2)
  ∧ e.1 ≠ [] ∧ lang ≠ [].
Proof.
  unfold clean_candidate. destruct lang as [|c lang]; simpl.
  { by intros ?%elem_of_nil. }
  destruct (extract_proficiency_from_name (c :: lang)) as [name ex].
  simpl. destruct name as [|x name]; simpl.
  { by intros ?%elem_of_nil. }
  intros ->%list_elem_of_singleton. done.
Qed.

Lemma make_entry_proficiency name level :
  make_entry name level !! "proficiency" = Some level.
Proof. unfold make_entry. by simplify_map_eq. Qed.

Lemma make_entry_language name level :
  make_entry name level !! "language" = Some (PStr (Str.strip name)).
Proof. unfold make_entry. by simplify_map_eq. Qed.

(** C1 as amended.  The fallback to the entry's own [proficiency] field
    is taken whenever the extraction yields no level: when no marker was
    extracted, and also when one was extracted but is not recognised.  A
    recognised marker is emitted normalised. *)
Theorem final_proficiency_fallback (lang_obj : dict) (lang : str) (d : dict) :
  d ∈ clean_candidate lang_obj lang →
  d !! "proficiency" = Some
    match Spec.marker lang with
    | Some mk =>
        match normalize_proficiency mk with
        | PStr level => PStr level
        | PNone => normalize_proficiency (get "proficiency" lang_obj)
        end
    | None => normalize_proficiency (get "proficiency" lang_obj)
    end.
Proof.
  intros [-> _]%clean_candidate_entry.
  rewrite make_entry_proficiency. f_equal.
  rewrite extract_proficiency_from_name_eq. cbn [snd].
  rewrite truthy_normalize_proficiency, try_patterns_marker.
  unfold Spec.marker. destruct (Spec.first_marker _ _) as [mk|]; simpl.
  - by destruct (normalize_proficiency mk).
  - done.
Qed.

Lemma clean_candidate_french_b2 :
  clean_candidate french_b2_fluent (lit "french (b2)")
  = [make_entry (lit "french") (PStr (lit "Advanced"))].
Proof. by_eval. Qed.

Lemma final_proficiency_fallback_witness :
  make_entry (lit "french") (PStr (lit "Advanced"))
    ∈ clean_candidate french_b2_fluent (lit "french (b2)")
  ∧ make_entry (lit "french") (PStr (lit "Advanced")) !! "proficiency"
    = Some (PStr (lit "Advanced")).
Proof.
  assert (make_entry (lit "french") (PStr (lit "Advanced"))
            ∈ clean_candidate french_b2_fluent (lit "french (b2)")) as H.
  { rewrite clean_candidate_french_b2. apply list_elem_of_here. }
  split; [exact H |].
  rewrite (final_proficiency_fallback _ _ _ H). by_eval.
Defined.

(** C1 as stated fails: the marker "b2" is extracted and normalises to
    [None], yet the entry is emitted with the level of its own field. *)
Lemma unrecognised_marker_falls_back :
  Spec.marker (lit "french (b2)") = Some (PStr (lit "b2"))
  ∧ normalize_proficiency (PStr (lit "b2")) = PNone
  ∧ Spec.final_proficiency french_b2_fluent (lit "french (b2)") = PNone
  ∧ clean_candidate french_b2_fluent (lit "french (b2)")
    = [make_entry (lit "french") (PStr (lit "Advanced"))].
Proof. repeat split; by_eval. Qed.

End CleanFacts.

(** ** [clean.py]: the split on the connective *)
Module AndSplit.
Import Unicode Re Clean StrFacts ReFacts.

Local Arguments code : simpl never.
Local Arguments between : simpl never.

(** What follows the first [\s+] in [\s+and\s+]. *)
Local Abbreviation and_tail := (Seq (word (lit "and")) (Plus Space)).
Local Abbreviation final := (λ (s' : str) (g : option str), Some (s', g)).

Lemma is_space_lower_char c : is_space (lower_char c) = is_space c.
Proof. each_char c; reflexivity. Qed.

(** No match starts at a character that is not whitespace. *)
Lemma and_here_no_space n0 x t :
  is_space x = false → match_here false n0 and_pattern (x :: t) = None.
Proof. intros H. unfold match_here. simpl. by rewrite H. Qed.

Lemma and_here_nil n0 : match_here false n0 and_pattern [] = None.
Proof. reflexivity. Qed.

Lemma and_tail_space n0 x t :
  is_space x = true → exec false n0 and_tail final (x :: t) None = None.
Proof. intros H. simpl. case_bool_decide; [by subst | done]. Qed.

Lemma and_tail_word n0 b :
  Forall (λ c, is_space c = false) b →
  exec false n0 and_tail final b None = None.
Proof.
  intros Hb. destruct b as [|b1 [|b2 [|b3 [|b4 b']]]]; simpl;
    repeat case_bool_decide; try done.
  do 3 apply Forall_cons in Hb as [_ Hb]. apply Forall_cons in Hb as [-> _].
  done.
Qed.

Lemma and_tail_other_case n0 (w rest : str) :
  length w = 3 → w ≠ lit "and" →
  exec false n0 and_tail final (w ++ rest) None = None.
Proof.
  intros Hl Hw. destruct w as [|w1 [|w2 [|w3 [|? ?]]]]; try done.
  simpl. repeat case_bool_decide; try done. by subst.
Qed.

Lemma and_tail_and n0 ws b :
  ws ≠ [] → Forall (λ c, is_space c = true) ws →
  Forall (λ c, is_space c = false) b →
  exec false n0 and_tail final (lit "and" ++ ws ++ b) None = Some (b, None).
Proof.
  intros Hne Hws Hb. destruct Hws as [|x ws Hx Hws]; [done |].
  simpl. rewrite orb_false_r, Hx.
  apply (star_all false Space (λ s', Some (s', None))); [| | done].
  - eapply Forall_impl; [exact Hws |]. simpl. by intros ? ->.
  - intros y t ->. simpl. apply Forall_cons in Hb as [-> _]. done.
Qed.

(** A run of whitespace, the word, a run of whitespace: a match, which
    ends where the second run ends. *)
Lemma and_here_match n0 ws1 ws2 b :
  ws1 ≠ [] → ws2 ≠ [] →
  Forall (λ c, is_space c = true) ws1 →
  Forall (λ c, is_space c = true) ws2 →
  Forall (λ c, is_space c = false) b →
  match_here false n0 and_pattern (ws1 ++ lit "and" ++ ws2 ++ b)
  = Some (b, None).
Proof.
  intros Hne1 Hne2 Hws1 Hws2 Hb. destruct Hws1 as [|x ws1 Hx Hws1]; [done |].
  unfold match_here. cbn [app]. unfold and_pattern.
  cbn [exec plus accepts in_set]. rewrite orb_false_r, Hx.
  apply (star_all false Space
           (λ s', exec false n0 and_tail final s' None)).
  - eapply Forall_impl; [exact Hws1 |]. simpl. by intros ? ->.
  - by intros y t [= <- _].
  - by apply and_tail_and.
Qed.

(** Inside a run of whitespace that is not followed by the word, no match
    starts. *)
Lemma and_here_spaces n0 ws rest :
  Forall (λ c, is_space c = true) ws →
  (∀ x t, rest = x :: t → is_space x = false) →
  exec false n0 and_tail final rest None = None →
  ∀ l x t, ws = l ++ x :: t →
    match_here false n0 and_pattern (x :: t ++ rest) = None.
Proof.
  intros Hws Hrest Hk l x t ->.
  apply Forall_app in Hws as [_ Hws]. apply Forall_cons in Hws as [Hx Ht].
  unfold match_here, and_pattern. cbn [exec plus accepts in_set].
  rewrite orb_false_r, Hx.
  apply (star_none false Space
           (λ s', exec false n0 and_tail final s' None)); [| | done |].
  - eapply Forall_impl; [exact Ht |]. simpl. by intros ? ->.
  - intros y u E. simpl. by rewrite (Hrest y u E).
  - intros y u Hy. apply and_tail_space. simpl in Hy.
    by rewrite orb_false_r in Hy.
Qed.

Lemma and_here_word n0 a rest :
  Forall (λ c, is_space c = false) a →
  ∀ l x t, a = l ++ x :: t →
    match_here false n0 and_pattern (x :: t ++ rest) = None.
Proof.
  intros Ha l x t ->. apply Forall_app in Ha as [_ Ha].
  apply Forall_cons in Ha as [Hx _]. by apply and_here_no_space.
Qed.

Lemma word_head (b : str) :
  Forall (λ c, is_space c = false) b →
  ∀ x t, b = x :: t → is_space x = false.
Proof. intros Hb x t ->. by apply Forall_cons in Hb as [? _]. Qed.

Lemma split_word n0 cur b :
  Forall (λ c, is_space c = false) b →
  split_from false n0 and_pattern 0 cur b = [rev cur ++ b].
Proof.
  intros Hb. rewrite <- (app_nil_r b) at 1.
  rewrite split_from_keep by (by apply and_here_word).
  simpl. by rewrite rev_app_distr, rev_involutive.
Qed.

Lemma split_two n0 (a b ws1 ws2 : str) :
  Forall (λ c, is_space c = false) a →
  Forall (λ c, is_space c = false) b →
  ws1 ≠ [] → Forall (λ c, is_space c = true) ws1 →
  ws2 ≠ [] → Forall (λ c, is_space c = true) ws2 →
  split_from false n0 and_pattern 0 [] (a ++ ws1 ++ lit "and" ++ ws2 ++ b)
  = [a; b].
Proof.
  intros Ha Hb Hne1 Hws1 Hne2 Hws2.
  rewrite split_from_keep by (by apply and_here_word).
  pose proof (and_here_match n0 ws1 ws2 b Hne1 Hne2 Hws1 Hws2 Hb) as Hm.
  destruct ws1 as [|x ws1]; [done |].
  replace ((x :: ws1) ++ lit "and" ++ ws2 ++ b)
    with (x :: (ws1 ++ lit "and" ++ ws2) ++ b) in *
    by (simpl; by rewrite <- !app_assoc).
  rewrite (split_from_match _ _ _ _ _ _ _ _ Hm).
  rewrite split_word by done.
  rewrite app_nil_r, rev_involutive. done.
Qed.

Lemma split_one n0 (a b ws1 ws2 w : str) :
  Forall (λ c, is_space c = false) a →
  Forall (λ c, is_space c = false) b →
  Forall (λ c, is_space c = true) ws1 →
  Forall (λ c, is_space c = true) ws2 →
  Str.lower w = lit "and" → w ≠ lit "and" →
  split_from false n0 and_pattern 0 [] (a ++ ws1 ++ w ++ ws2 ++ b)
  = [a ++ ws1 ++ w ++ ws2 ++ b].
Proof.
  intros Ha Hb Hws1 Hws2 Hw Hne.
  assert (length w = 3) as Hlen.
  { apply (f_equal length) in Hw. unfold Str.lower in Hw.
    by rewrite length_map in Hw. }
  assert (Forall (λ c, is_space c = false) w) as Hword.
  { destruct w as [|w1 [|w2 [|w3 [|? ?]]]]; try done.
    injection Hw as H1 H2 H3.
    repeat constructor; rewrite <- is_space_lower_char;
      by rewrite ?H1, ?H2, ?H3. }
  rewrite split_from_keep by (by apply and_here_word).
  rewrite split_from_keep.
  2:{ apply and_here_spaces; [done | |].
      - intros x t E. destruct w as [|w1 w]; [done |].
        injection E as <- _. by apply Forall_cons in Hword as [? _].
      - by apply and_tail_other_case. }
  rewrite split_from_keep by (by apply and_here_word).
  rewrite split_from_keep.
  2:{ apply and_here_spaces; [done | by apply word_head |].
      by apply and_tail_word. }
  rewrite split_word by done.
  rewrite app_nil_r, !rev_app_distr, !rev_involutive.
  by rewrite <- !app_assoc.
Qed.

(** *** Every fragment *)

Lemma connective_here_app (p q : str) :
  Spec.connective_here p = true → Spec.connective_here (p ++ q) = true.
Proof. by destruct p as [|x [|a [|n [|d [|y p]]]]]. Qed.

Lemma has_connective_suffix (l t : str) :
  Spec.has_connective t = true → Spec.has_connective (l ++ t) = true.
Proof.
  intros H. induction l as [|x l IH]; [done |].
  cbn [app Spec.has_connective]. rewrite IH. apply orb_true_r.
Qed.

Lemma has_connective_prefix (s r : str) :
  Spec.has_connective s = true → Spec.has_connective (s ++ r) = true.
Proof.
  induction s as [|x s IH]; [done |]. cbn [app Spec.has_connective].
  intros [H|H]%orb_true_iff.
  - change (x :: s ++ r) with ((x :: s) ++ r) at 1.
    by rewrite (connective_here_app (x :: s) r H).
  - rewrite (IH H). apply orb_true_r.
Qed.

Lemma connective_occurrence (l r : str) x y :
  is_space x = true → is_space y = true →
  Spec.has_connective (l ++ x :: lit "and" ++ y :: r) = true.
Proof.
  intros Hx Hy. apply has_connective_suffix.
  change (lit "and") with ["a"%char; "n"%char; "d"%char].
  cbn [Spec.has_connective Spec.connective_here app].
  by rewrite Hx, Hy, bool_decide_eq_true_2.
Qed.

(** A literal word, matched as it is written. *)
Lemma exec_word_exact {R} n0 (w : str) :
  ∀ (k : str → option str → option R) (s : str) g res,
    exec false n0 (word w) k s g = Some res →
    ∃ rest, s = w ++ rest ∧ k rest g = Some res.
Proof.
  induction w as [|c w IH]; intros k s g res H; [by exists s |].
  assert (∀ (k' : str → option str → option R),
            exec false n0 (One (Chr c)) k' s g = Some res →
            ∃ rest, s = c :: rest ∧ k' rest g = Some res) as Hone.
  { intros k' H'. cbn [exec accepts] in H'. destruct s as [|x s]; [done |].
    case_bool_decide; [| done]. subst. eauto. }
  destruct w as [|c' w].
  - by apply Hone in H.
  - change (word (c :: c' :: w)) with (Seq (One (Chr c)) (word (c' :: w)))
      in H.
    cbn [exec] in H. apply Hone in H as (rest & -> & Hk).
    apply IH in Hk as (rest' & -> & Hk). by exists rest'.
Qed.

Lemma accepts_space x : accepts false Space x = is_space x.
Proof. cbn. apply orb_false_r. Qed.

Lemma plus_space_reads {R} (k : str → option R) (s : str) res :
  plus false Space k s = Some res →
  ∃ ws rest, s = ws ++ rest ∧ ws ≠ []
             ∧ Forall (λ c, is_space c = true) ws ∧ k rest = Some res.
Proof.
  intros (ws & rest & -> & Hne & Hws & Hk)%plus_reads.
  exists ws, rest. repeat split; try done.
  eapply Forall_impl; [exact Hws |]. intros x Hx. by rewrite <- accepts_space.
Qed.

(** What a match of the pattern reads: a run of whitespace, the word, a
    run of whitespace. *)
Lemma and_here_shape n0 (s rest : str) g :
  match_here false n0 and_pattern s = Some (rest, g) →
  ∃ ws1 ws2, s = ws1 ++ lit "and" ++ ws2 ++ rest
             ∧ ws1 ≠ [] ∧ ws2 ≠ []
             ∧ Forall (λ c, is_space c = true) ws1
             ∧ Forall (λ c, is_space c = true) ws2.
Proof.
  unfold match_here, and_pattern.
  change (exec false n0 (Seq (Plus Space) and_tail) final s None)
    with (plus false Space
            (λ s', exec false n0 (word (lit "and"))
                     (λ s'' g', plus false Space (λ t, final t g') s'')
                     s' None) s).
  intros (ws1 & r1 & -> & Hne1 & Hws1 & Hk)%plus_space_reads.
  apply exec_word_exact in Hk as (r2 & -> & Hk).
  apply plus_space_reads in Hk as (ws2 & r3 & -> & Hne2 & Hws2 & Hk).
  injection Hk as -> _. by exists ws1, ws2.
Qed.

Lemma match_has_connective n0 (s rest : str) g :
  match_here false n0 and_pattern s = Some (rest, g) →
  Spec.has_connective s = true.
Proof.
  intros (ws1 & ws2 & -> & Hne1 & Hne2 & Hws1 & Hws2)%and_here_shape.
  destruct (exists_last Hne1) as (w1 & x & ->).
  destruct ws2 as [|y w2]; [done |].
  apply Forall_app in Hws1 as [_ [Hx _]%Forall_cons].
  apply Forall_cons in Hws2 as [Hy _].
  rewrite <- app_assoc. cbn [app].
  change (w1 ++ x :: lit "and" ++ y :: w2 ++ rest)
    with (w1 ++ x :: lit "and" ++ y :: (w2 ++ rest)).
  by apply connective_occurrence.
Qed.

(** The pattern has no anchor: where the scan started does not count. *)
Lemma and_here_anywhere n0 n1 (s : str) :
  match_here false n0 and_pattern s = match_here false n1 and_pattern s.
Proof. reflexivity. Qed.

Lemma split_from_anywhere n0 n1 : ∀ (s : str) skip cur,
  split_from false n0 and_pattern skip cur s
  = split_from false n1 and_pattern skip cur s.
Proof.
  induction s as [|x s IH]; intros skip cur; [done |].
  cbn [split_from]. destruct skip as [|n]; [| apply IH].
  rewrite (and_here_anywhere n0 n1).
  destruct (match_here false n1 and_pattern (x :: s)) as [[rest g]|];
    [| apply IH].
  destruct (length (x :: s) - length rest); by rewrite IH.
Qed.

(** A fragment without the connective is one piece. *)
Lemma split_without_connective n0 (cur item : str) :
  Spec.has_connective item = false →
  split_from false n0 and_pattern 0 cur item = [rev cur ++ item].
Proof.
  intros H. rewrite <- (app_nil_r item) at 1. rewrite split_from_keep.
  - cbn. by rewrite rev_app_distr, rev_involutive.
  - intros l x t ->. rewrite app_nil_r.
    destruct (match_here false n0 and_pattern (x :: t)) as [[rest g]|] eqn:Hm;
      [| done].
    apply match_has_connective in Hm.
    by rewrite (has_connective_suffix l _ Hm) in H.
Qed.

Lemma and_tail_and_head n0 (ws b : str) :
  ws ≠ [] → Forall (λ c, is_space c = true) ws →
  (∀ x t, b = x :: t → is_space x = false) →
  exec false n0 and_tail final (lit "and" ++ ws ++ b) None = Some (b, None).
Proof.
  intros Hne Hws Hb. destruct Hws as [|x ws Hx Hws]; [done |].
  simpl. rewrite orb_false_r, Hx.
  apply (star_all false Space (λ s', Some (s', None))); [| | done].
  - eapply Forall_impl; [exact Hws |]. simpl. by intros ? ->.
  - intros y t E. simpl. by rewrite (Hb y t E).
Qed.

Lemma and_here_match_head n0 (ws1 ws2 b : str) :
  ws1 ≠ [] → ws2 ≠ [] →
  Forall (λ c, is_space c = true) ws1 →
  Forall (λ c, is_space c = true) ws2 →
  (∀ x t, b = x :: t → is_space x = false) →
  match_here false n0 and_pattern (ws1 ++ lit "and" ++ ws2 ++ b)
  = Some (b, None).
Proof.
  intros Hne1 Hne2 Hws1 Hws2 Hb. destruct Hws1 as [|x ws1 Hx Hws1]; [done |].
  unfold match_here. cbn [app]. unfold and_pattern.
  cbn [exec plus accepts in_set]. rewrite orb_false_r, Hx.
  apply (star_all false Space
           (λ s', exec false n0 and_tail final s' None)).
  - eapply Forall_impl; [exact Hws1 |]. simpl. by intros ? ->.
  - by intros y t [= <- _].
  - by apply and_tail_and_head.
Qed.

(** Before the first occurrence of the connective no match starts. *)
Lemma no_match_before_connective n0 (a w rest : str) :
  (∀ t c, a = t ++ [c] → is_space c = false) →
  w ≠ [] → Forall (λ c, is_space c = true) w →
  Spec.has_connective (a ++ w) = false →
  ∀ l x u, a = l ++ x :: u →
    match_here false n0 and_pattern (x :: u ++ w ++ rest) = None.
Proof.
  intros Hlast Hne Hw Hnone l x u ->.
  destruct (match_here false n0 and_pattern (x :: u ++ w ++ rest))
    as [[rest' g]|] eqn:Hm; [exfalso | done].
  apply and_here_shape in Hm as (v1 & v2 & E & Hv1 & Hv2 & Hs1 & Hs2).
  destruct (exists_last (l := x :: u)) as (u' & z & Hz); [done |].
  assert (is_space z = false) as Hzs.
  { apply (Hlast (l ++ u') z). by rewrite <- app_assoc, <- Hz. }
  destruct w as [|w0 w']; [done |]. apply Forall_cons in Hw as [Hw0 Hw'].
  destruct v2 as [|y v2']; [done |]. apply Forall_cons in Hs2 as [Hy _].
  destruct (exists_last Hv1) as (v1' & x1 & ->).
  apply Forall_app in Hs1 as [Hs1' [Hx1 _]%Forall_cons].
  change (x :: u ++ (w0 :: w') ++ rest)
    with ((x :: u) ++ (w0 :: w') ++ rest) in E.
  apply app_eq_inv in E as [(k & E1 & E2) | (k & E1 & E2)].
  - (* the whitespace run ends inside [x :: u] *)
    destruct k as [|k1 [|k2 [|k3 [|k4 k]]]]; cbn in E2.
    + rewrite app_nil_r in E1. rewrite Hz in E1.
      apply app_inj_tail in E1 as [_ ->]. congruence.
    + injection E2 as _ E2 _. subst w0. done.
    + injection E2 as _ _ E2 _. subst w0. done.
    + injection E2 as <- <- <- E2 _. subst w0. revert Hnone.
      rewrite E1. rewrite <- !app_assoc. cbn [app].
      change (l ++ v1' ++ x1 :: "a"%char :: "n"%char :: "d"%char :: y :: w')
        with (l ++ v1' ++ x1 :: lit "and" ++ y :: w').
      rewrite app_assoc.
      by rewrite connective_occurrence.
    + injection E2 as <- <- <- <- E2. revert Hnone.
      rewrite E1. rewrite <- !app_assoc. cbn [app].
      change (l ++ v1' ++ x1 :: "a"%char :: "n"%char :: "d"%char
                         :: y :: k ++ w0 :: w')
        with (l ++ v1' ++ x1 :: lit "and" ++ y :: (k ++ w0 :: w')).
      rewrite app_assoc.
      by rewrite connective_occurrence.
  - (* the whitespace run would cover the last character of [a] *)
    rewrite Hz in E1.
    assert (z ∈ v1' ++ [x1]) as Hin.
    { rewrite E1. rewrite elem_of_app. left. rewrite elem_of_app. right.
      by left. }
    apply elem_of_app in Hin as [Hin | ->%list_elem_of_singleton];
      [| congruence].
    rewrite Forall_forall in Hs1'. specialize (Hs1' z Hin). congruence.
Qed.

(** A fragment is cut at the first occurrence of the connective. *)
Lemma split_at_first_connective (a ws1 ws2 b : str) :
  ws1 ≠ [] → ws2 ≠ [] →
  Forall (λ c, is_space c = true) ws1 →
  Forall (λ c, is_space c = true) ws2 →
  Spec.has_connective (a ++ ws1) = false →
  (∀ x t, b = x :: t → is_space x = false) →
  and_split (a ++ ws1 ++ lit "and" ++ ws2 ++ b)
  = Str.strip a :: and_split b.
Proof.
  intros Hne1 Hne2 Hws1 Hws2 Hnone Hb.
  destruct (rstrip_split a) as (t & Ea & Ht).
  set (a' := Str.rstrip a) in *. set (w := t ++ ws1).
  assert (w ≠ []) as Hw by (unfold w; by destruct t, ws1).
  assert (Forall (λ c, is_space c = true) w) as Hws
    by (by apply Forall_app).
  assert (a ++ ws1 = a' ++ w) as Eaw
    by (unfold w; by rewrite Ea at 1; rewrite <- app_assoc).
  assert (Str.strip a = Str.strip a') as ->.
  { rewrite Ea at 1. by apply strip_spaces_right. }
  replace (a ++ ws1 ++ lit "and" ++ ws2 ++ b)
    with (a' ++ w ++ lit "and" ++ ws2 ++ b)
    by (by rewrite !app_assoc, <- Eaw, <- !app_assoc).
  rewrite Eaw in Hnone. unfold and_split, Re.split.
  set (n0 := length _).
  rewrite split_from_keep.
  2:{ apply (no_match_before_connective n0 a' w); try done.
      intros u c E. by apply (rstrip_last a u c). }
  pose proof (and_here_match_head n0 w ws2 b Hw Hne2 Hws Hws2 Hb) as Hm.
  destruct w as [|w0 w']; [done |].
  replace ((w0 :: w') ++ lit "and" ++ ws2 ++ b)
    with (w0 :: (w' ++ lit "and" ++ ws2) ++ b) in *
    by (simpl; by rewrite <- !app_assoc).
  rewrite (split_from_match _ _ _ _ _ _ _ _ Hm).
  rewrite app_nil_r, rev_involutive. cbn [map]. f_equal.
  by rewrite (split_from_anywhere n0 (length b)).
Qed.

(** The first occurrence of the connective. *)
Lemma first_connective (s : str) :
  Spec.has_connective s = true →
  ∃ l x y r, s = l ++ x :: lit "and" ++ y :: r
             ∧ is_space x = true ∧ is_space y = true
             ∧ Spec.has_connective (l ++ [x]) = false.
Proof.
  induction s as [|c s IH]; [done |]. cbn [Spec.has_connective].
  destruct (Spec.connective_here (c :: s)) eqn:Hc.
  - intros _. destruct s as [|a [|n [|d [|y r]]]]; try done.
    cbn [Spec.connective_here] in Hc.
    apply andb_true_iff in Hc as [[Hx Hw]%andb_true_iff Hy].
    apply bool_decide_eq_true in Hw. injection Hw as -> -> ->.
    by exists [], c, y, r.
  - cbn [orb]. intros (l & x & y & r & -> & Hx & Hy & Hl)%IH.
    exists (c :: l), x, y, r. repeat split; try done.
    cbn [app Spec.has_connective]. rewrite Hl, orb_false_r.
    destruct (Spec.connective_here (c :: l ++ [x])) eqn:Hp; [| done].
    apply (connective_here_app _ (lit "and" ++ y :: r)) in Hp.
    cbn [app] in Hp. rewrite <- app_assoc in Hp. cbn [app] in Hp.
    congruence.
Qed.

(** C3 as amended.  The connective is matched as the pattern writes it:
    the word in lowercase between two runs of whitespace, whatever the
    fragment.  A fragment in which it does not occur is one candidate, in
    whatever case the word "and" may be written there; a fragment in
    which it occurs is cut at its first occurrence, the text before it
    being a candidate and the text after it being split in the same
    way. *)
Theorem and_split_case_sensitive (item : str) :
  (Spec.has_connective item = false → and_split item = [Str.strip item])
  ∧ (∀ a ws1 ws2 b : str,
       item = a ++ ws1 ++ lit "and" ++ ws2 ++ b →
       ws1 ≠ [] → ws2 ≠ [] →
       Forall (λ c, is_space c = true) ws1 →
       Forall (λ c, is_space c = true) ws2 →
       Spec.has_connective (a ++ ws1) = false →
       (∀ x t, b = x :: t → is_space x = false) →
       and_split item = Str.strip a :: and_split b)
  ∧ (Spec.has_connective item = true →
     ∃ a ws1 ws2 b : str,
       item = a ++ ws1 ++ lit "and" ++ ws2 ++ b
       ∧ ws1 ≠ [] ∧ ws2 ≠ []
       ∧ Forall (λ c, is_space c = true) ws1
       ∧ Forall (λ c, is_space c = true) ws2
       ∧ Spec.has_connective (a ++ ws1) = false
       ∧ (∀ x t, b = x :: t → is_space x = false)).
Proof.
  split; [| split].
  - intros H. unfold and_split, Re.split.
    by rewrite split_without_connective.
  - intros a ws1 ws2 b -> Hne1 Hne2 Hws1 Hws2 Hnone Hb.
    by apply split_at_first_connective.
  - intros (l & x & y & r & -> & Hx & Hy & Hl)%first_connective.
    destruct (lstrip_split r) as (ws & Er & Hws).
    exists l, [x], (y :: ws), (Str.lstrip r).
    repeat split; try done.
    + cbn [app]. by rewrite <- Er.
    + by repeat constructor.
    + by constructor.
    + intros c t E. by apply (lstrip_head c r t).
Qed.

Lemma and_split_case_sensitive_witness :
  and_split (lit "Old English AND French") = [lit "Old English AND French"]
  ∧ and_split (lit "a and b and c") = [lit "a"; lit "b"; lit "c"].
Proof.
  assert (Forall (λ c, is_space c = true) (lit " ")) as Hsp
    by (by repeat constructor).
  split.
  - destruct (and_split_case_sensitive (lit "Old English AND French"))
      as (H & _ & _).
    by rewrite H.
  - destruct (and_split_case_sensitive (lit "a and b and c"))
      as (_ & H1 & _).
    rewrite (H1 (lit "a") (lit " ") (lit " ") (lit "b and c"));
      [| reflexivity | done | done | exact Hsp | exact Hsp | reflexivity
       | by intros x t [= <- _]].
    destruct (and_split_case_sensitive (lit "b and c")) as (_ & H2 & _).
    rewrite (H2 (lit "b") (lit " ") (lit " ") (lit "c"));
      [| reflexivity | done | done | exact Hsp | exact Hsp | reflexivity
       | by intros x t [= <- _]].
    destruct (and_split_case_sensitive (lit "c")) as (H3 & _ & _).
    by rewrite H3.
Defined.

(** C3 as stated fails: with a case-insensitive connective "English AND
    French" would give two candidates; the code keeps it whole. *)
Lemma and_split_keeps_uppercase_connective :
  and_split (lit "English AND French") = [lit "English AND French"]
  ∧ Spec.and_split (lit "English AND French")
    = [lit "English"; lit "French"]
  ∧ and_split (lit "English and French") = [lit "English"; lit "French"].
Proof. repeat split; vm_compute; reflexivity. Qed.

End AndSplit.

(** ** [clean.py]: the emitted entries *)
Module Emitted.
Import Unicode Re Clean Paren StrFacts ReFacts CleanFacts Samples.

Local Arguments code : simpl never.
Local Arguments between : simpl never.

(** *** Pattern (a) and parentheses *)

(** A literal that has no other case is matched by itself only, also
    under [re.IGNORECASE]. *)
Lemma accepts_ic_chr (y x : char) :
  lower_char y = y → upper_char y = y →
  accepts true (Chr y) x = bool_decide (x = y).
Proof.
  intros Hy Hu. cbn [accepts].
  assert (case_fold y = y) as ->.
  { unfold case_fold. rewrite Hy. by destruct y. }
  destruct (decide (x = y)) as [->|Hne].
  - assert (case_fold y = y) as ->; [| by rewrite !bool_decide_eq_true_2].
    unfold case_fold. rewrite Hy. by destruct y.
  - rewrite (bool_decide_eq_false_2 (x = y)) by done.
    apply bool_decide_eq_false_2. intros E. apply Hne. subst y.
    revert Hu. clear. each_char x; vm_compute; congruence.
Qed.





Lemma in_parentheses_nil n0 : match_here true n0 in_parentheses [] = None.
Proof. reflexivity. Qed.













(** *** Lowercase names *)

Lemma try_patterns_erase patterns s :
  erase (λ _, True) s (try_patterns patterns s).1.
Proof.
  induction patterns as [|p ps IH]; simpl.
  - induction s; constructor; auto.
  - destruct (Re.search true p s); [| done]. simpl.
    eapply erase_mono; [| apply sub_erase]. done.
Qed.

Lemma extract_lowercase lang :
  Forall (λ c, has_lower c = false)
    (Str.strip (extract_proficiency_from_name lang).1).
Proof.
  rewrite extract_proficiency_from_name_eq. cbn [fst].
  do 2 apply strip_Forall.
  eapply erase_Forall; [apply try_patterns_erase |].
  apply strip_Forall, lower_not_upper.
Qed.

(** *** The shape of an emitted entry *)

Lemma cleaned_languages_entry (current : list dict) (d : dict) :
  d ∈ cleaned_languages current →
  ∃ lang_obj lang, lang_obj ∈ current ∧ d ∈ clean_candidate lang_obj lang.
Proof.
  unfold cleaned_languages.
  intros (lang_obj & Hin & Hd)%list_elem_of_In%in_flat_map.
  exists lang_obj. unfold clean_entry in Hd.
  destruct (lang_obj !! "language") as [[|lang_str]|]; simpl in Hd;
    try done.
  destruct (negb _); [done |].
  apply in_flat_map in Hd as (lang & _ & Hd).
  exists lang. by rewrite !list_elem_of_In.
Qed.


Lemma cleaned_french_b2_basic :
  cleaned_languages [french_b2_basic] = [french_basic_left].
Proof. by_eval. Qed.



(** *** One document *)

Lemma process_doc_absent st d :
  languages d = None → process_doc st d = st.
Proof. unfold process_doc. by intros ->. Qed.

Lemma process_doc_clean st d current :
  languages d = Some current → cleaned_languages current = current →
  process_doc st d = st.
Proof.
  unfold process_doc. intros -> E. by rewrite bool_decide_eq_false_2 by auto.
Qed.

Lemma process_doc_dirty st d current :
  languages d = Some current → cleaned_languages current ≠ current →
  issued (coll (process_doc st d))
  = (doc_id d, cleaned_languages current) :: issued (coll st).
Proof.
  unfold process_doc. intros -> E. rewrite bool_decide_eq_true_2 by done.
  unfold update_one. by destruct (refuses (coll st) (doc_id d)).
Qed.

Lemma process_doc_issued st d :
  issued (coll (process_doc st d)) = Spec.update_of d ++ issued (coll st).
Proof.
  unfold Spec.update_of. destruct (languages d) as [current|] eqn:E.
  - destruct (decide _) as [Heq|Hne].
    + by rewrite (process_doc_clean _ _ _ E Heq).
    + by rewrite (process_doc_dirty _ _ _ E Hne).
  - by rewrite process_doc_absent.
Qed.

Lemma update_of_rev d : rev (Spec.update_of d) = Spec.update_of d.
Proof.
  unfold Spec.update_of. destruct (languages d); [| done].
  by destruct (decide _).
Qed.

Lemma foldl_process_doc_issued batch st :
  issued (coll (foldl process_doc st batch))
  = rev (flat_map Spec.update_of batch) ++ issued (coll st).
Proof.
  revert st. induction batch as [|d batch IH]; intros st; [done |].
  cbn [foldl flat_map]. rewrite IH, process_doc_issued.
  by rewrite rev_app_distr, update_of_rev, <- app_assoc.
Qed.

(** C8.  A record whose cleaned array equals the original one (as
    values) is left alone: no [update_one], no counter changes.  A record
    whose cleaned array differs gets exactly one [update_one], carrying
    the whole new array.  Over a batch, the calls issued are exactly
    those, one per differing record, in order. *)
Theorem update_only_when_different :
  (∀ st d current,
     languages d = Some current → cleaned_languages current = current →
     process_doc st d = st)
  ∧ (∀ st d current,
       languages d = Some current → cleaned_languages current ≠ current →
       issued (coll (process_doc st d))
       = (doc_id d, cleaned_languages current) :: issued (coll st))
  ∧ (∀ batch c,
       issued (process_batch batch c).2
       = rev (flat_map Spec.update_of batch) ++ issued c).
Proof.
  split; [exact process_doc_clean |]. split; [exact process_doc_dirty |].
  intros batch c. unfold process_batch. cbn [snd].
  apply foldl_process_doc_issued.
Qed.

Lemma cleaned_english_clean :
  cleaned_languages [english_clean] = [english_clean].
Proof. by_eval. Qed.

Lemma cleaned_english_raw :
  cleaned_languages [english_raw] = [english_clean].
Proof. by_eval. Qed.

Lemma english_raw_differs : cleaned_languages [english_raw] ≠ [english_raw].
Proof.
  rewrite cleaned_english_raw. intros H.
  apply (f_equal (λ l : list dict, head l ≫= (.!! "proficiency"))) in H.
  vm_compute in H. discriminate.
Qed.

Lemma update_only_when_different_witness :
  let st := BatchState 0 0 (Collection [] (λ _, false)) in
  process_doc st (Doc 1 (Some [english_clean])) = st
  ∧ issued (coll (process_doc st (Doc 2 (Some [english_raw]))))
    = [(2%Z, cleaned_languages [english_raw])].
Proof.
  intros st. destruct update_only_when_different as (H1 & H2 & _). split.
  - apply (H1 st (Doc 1 (Some [english_clean])) [english_clean] eq_refl).
    exact cleaned_english_clean.
  - apply (H2 st (Doc 2 (Some [english_raw])) [english_raw] eq_refl).
    exact english_raw_differs.
Defined.

(** *** Letters that have a lowercase form make a record dirty *)

Lemma lowered_fixed (s : str) :
  Forall (λ c, has_lower c = false) s → Str.lower s = s.
Proof.
  unfold Str.lower. induction 1 as [|c s Hc _ IH]; [done |].
  cbn [map]. rewrite IH. unfold lower_char. by rewrite Hc.
Qed.

Lemma cleaned_name_lowercase (current : list dict) (d : dict) :
  d ∈ cleaned_languages current →
  ∃ name, d !! "language" = Some (PStr name)
          ∧ Forall (λ c, has_lower c = false) name.
Proof.
  intros (lang_obj & lang & _ & Hd)%cleaned_languages_entry.
  apply clean_candidate_entry in Hd as (-> & _ & _).
  eexists. split; [apply make_entry_language |]. apply extract_lowercase.
Qed.

Lemma uppercase_is_dirty (current : list dict) (e : dict) (s : str) :
  e ∈ current → e !! "language" = Some (PStr s) →
  Exists (λ c, has_lower c = true) s →
  cleaned_languages current ≠ current.
Proof.
  intros He Hs Hup Heq. rewrite <- Heq in He.
  apply cleaned_name_lowercase in He as (name & Hn & Hlow).
  rewrite Hs in Hn. injection Hn as ->.
  apply Exists_exists in Hup as (c & Hc & Hup).
  rewrite Forall_forall in Hlow. by rewrite (Hlow c) in Hup.
Qed.

(** C10 as amended.  Every emitted language name is what [str.lower]
    leaves unchanged, since the candidate is lowercased before anything is
    removed: it holds no letter that has a lowercase form.  So a record
    with such a letter in one of its language names never compares equal
    to its cleaned array, and an update is issued for it. *)
Theorem emitted_names_lowercase :
  (∀ current d,
     d ∈ cleaned_languages current →
     ∃ name, d !! "language" = Some (PStr name)
             ∧ Forall (λ c, has_lower c = false) name
             ∧ Str.lower name = name)
  ∧ (∀ st d current e s,
       languages d = Some current →
       e ∈ current → e !! "language" = Some (PStr s) →
       Exists (λ c, has_lower c = true) s →
       cleaned_languages current ≠ current
       ∧ issued (coll (process_doc st d))
         = (doc_id d, cleaned_languages current) :: issued (coll st)).
Proof.
  split.
  - intros current d (name & Hn & Hlow)%cleaned_name_lowercase.
    exists name. split; [done |]. split; [done | by apply lowered_fixed].
  - intros st d current e s Hd He Hs Hup.
    pose proof (uppercase_is_dirty _ _ _ He Hs Hup) as Hne.
    split; [done |]. by apply process_doc_dirty.
Qed.

Lemma emitted_names_lowercase_witness :
  let st := BatchState 0 0 (Collection [] (λ _, false)) in
  (∃ name, english_clean !! "language" = Some (PStr name)
           ∧ Forall (λ c, has_lower c = false) name
           ∧ Str.lower name = name)
  ∧ cleaned_languages [english_raw] ≠ [english_raw]
  ∧ issued (coll (process_doc st (Doc 2 (Some [english_raw]))))
    = [(2%Z, cleaned_languages [english_raw])].
Proof.
  intros st. destruct emitted_names_lowercase as [H1 H2]. split.
  - apply (H1 [english_raw] english_clean).
    rewrite cleaned_english_raw. apply list_elem_of_here.
  - apply (H2 st (Doc 2 (Some [english_raw])) [english_raw] english_raw
             (lit "English") eq_refl).
    + apply list_elem_of_here.
    + by_eval.
    + apply Exists_cons_hd. reflexivity.
Defined.

(** C10 as stated fails: U+1D400 is an uppercase letter and [str.lower]
    leaves it as it is, so a name made of it is emitted as it stands, is
    not lowercase, and the record is not rewritten. *)
Lemma emitted_name_keeps_caseless_capital :
  is_upper BoldA = true
  ∧ cleaned_languages [bold_a_entry] = [bold_a_entry]
  ∧ bold_a_entry !! "language" = Some (PStr [BoldA])
  ∧ ∀ st, process_doc st (Doc 1 (Some [bold_a_entry])) = st.
Proof.
  assert (cleaned_languages [bold_a_entry] = [bold_a_entry]) as H
    by (by_eval).
  split; [done |]. split; [exact H |]. split; [by_eval |].
  intros st. by apply (process_doc_clean st _ [bold_a_entry]).
Qed.

End Emitted.

(** ** [clean.py]: the run *)
Module Run.
Import Clean Samples.

Lemma run_batch_client batch st :
  ∃ r st', run_batch batch st = (Return r, st') ∧ client st' = client st.
Proof.
  unfold run_batch. destruct (process_batch batch (store st)) as [[u e] c].
  eauto.
Qed.

Lemma cursor_step_client batch_size total_docs k d st :
  client (cursor_step batch_size total_docs k d st).2 = client st.
Proof.
  unfold cursor_step. case_bool_decide; [| done].
  unfold mbind, M_bind, bind.
  destruct (run_batch_client (current_batch k ++ [d]) st)
    as ([u e] & st' & -> & <-).
  by case_bool_decide.
Qed.

Lemma cursor_loop_client batch_size total_docs cursor k st :
  client (cursor_loop batch_size total_docs cursor k st).2 = client st.
Proof.
  revert k st. induction cursor as [|d cursor IH]; intros k st; [done |].
  cbn [cursor_loop]. unfold mbind, M_bind, bind.
  pose proof (cursor_step_client batch_size total_docs k d st) as Hs.
  destruct (cursor_step batch_size total_docs k d st) as [[k'|e] st'];
    simpl in Hs; [| done].
  by rewrite IH.
Qed.

Lemma final_batch_client k st :
  ∃ k' st', final_batch k st = (Return k', st') ∧ client st' = client st.
Proof.
  unfold final_batch. destruct (current_batch k) as [|d b].
  { by exists k, st. }
  unfold mbind, M_bind, bind.
  destruct (run_batch_client (d :: b) st) as ([u e] & st' & -> & <-).
  eauto.
Qed.

(** Once the client is assigned, the run returns a result object and has
    closed the client, whatever the store does afterwards. *)
Lemma clean_languages_connected env batch_size c :
  setup_logger env = Return () → mongo_client env = Return () →
  ∃ r st, clean_languages env batch_size (initial c) = (Return r, st)
          ∧ client st = Closed
          ∧ (status r = "completed" ∨ status r = "failed").
Proof.
  intros Hlog Hcon. unfold clean_languages, initial.
  unfold mbind, M_bind, bind, call, try_finally, try_except, assign_client,
    mret, M_ret, ret, raise, close_client.
  rewrite Hlog, Hcon. cbn [store client].
  destruct (count_documents env) as [total_docs|e]; [| eauto 10].
  destruct (find env batch_size) as [cursor|e]; [| eauto 10].
  pose proof (cursor_loop_client batch_size total_docs cursor
                (Counters 0 0 0 []) (RunState Connected c)) as Hloop.
  destruct (cursor_loop _ _ _ _ _) as [[k|e] st]; simpl in Hloop.
  - destruct (cursor_error env) as [e|].
    + rewrite Hloop. eauto 10.
    + destruct (final_batch_client k st) as (k' & st' & -> & Hc).
      rewrite Hc, Hloop. eauto 10.
  - rewrite Hloop. eauto 10.
Qed.

(** C2 fails on the source.  When [MongoClient(db_uri)] raises, the
    [except] clause builds the 'failed' result, but the [finally] clause
    then calls [client.close()] on a name that was never assigned: the
    [UnboundLocalError] replaces the result and reaches the caller, and
    no connection is closed. *)
Theorem connect_failure_escapes env batch_size c e :
  setup_logger env = Return () → mongo_client env = Raise e →
  clean_languages env batch_size (initial c)
  = (Raise (UnboundLocalError "client"), initial c).
Proof.
  intros Hlog Hcon. unfold clean_languages, initial.
  unfold mbind, M_bind, bind, call, try_finally, try_except, assign_client.
  by rewrite Hlog, Hcon.
Qed.

Lemma connect_failure_escapes_witness :
  clean_languages unreachable_store 100 (initial (Collection [] (λ _, false)))
  = (Raise (UnboundLocalError "client"),
     initial (Collection [] (λ _, false))).
Proof.
  apply (connect_failure_escapes unreachable_store 100 _
           (PyMongoError "invalid URI")); reflexivity.
Defined.

End Run.

(** ** [clean_skills.py] *)
Module SkillFacts.
Import Unicode Re CleanSkills Dedup StrFacts ReFacts Samples.

(** The example of the specification: "Café" gives the key "cafe". *)
Lemma normalize_cafe : normalize_for_comparison cafe = lit "cafe".
Proof. by_eval. Qed.

(** [re.sub(r'[^...]', '', s)] keeps the characters of the class. *)
Lemma sub_negated_class n0 c s :
  sub_from false n0 (One (Neg c)) [] 0 s
  = filter (λ x, accepts false c x = true) s.
Proof.
  induction s as [|x s IH]; [done |].
  assert (match_here false n0 (One (Neg c)) (x :: s)
          = if accepts false c x then None else Some (s, None)) as Hm.
  { unfold match_here. cbn [exec accepts]. by destruct (accepts false c x). }
  destruct (accepts false c x) eqn:Hx.
  - rewrite sub_from_keep by done. rewrite filter_cons_True by done.
    by rewrite IH.
  - etrans; [exact (sub_from_match _ _ _ _ x [] s None Hm) |].
    rewrite filter_cons_False by (by rewrite Hx). exact IH.
Qed.

Lemma filter_agree {A} (P1 P2 : A → Prop)
    `{!∀ x, Decision (P1 x), !∀ x, Decision (P2 x)} (l : list A) :
  (∀ x, x ∈ l → P1 x ↔ P2 x) → filter P1 l = filter P2 l.
Proof.
  induction l as [|a l IH]; intros Hl; [done |].
  rewrite !filter_cons.
  rewrite IH by (intros x Hx; apply Hl; by right).
  apply decide_ext, Hl. by left.
Qed.

Lemma accepts_word_or_space x :
  accepts false (Or Word Space) x = is_word x || is_space x.
Proof. simpl. by rewrite !orb_false_r. Qed.

Lemma lower_char_underscore c : lower_char c = "_"%char → c = "_"%char.
Proof. each_char c; vm_compute; congruence. Qed.

(** Apart from the underscore, the source and the specification compute
    the same key. *)
Lemma normalize_for_comparison_without_underscore (skill : str) :
  "_"%char ∉ skill →
  normalize_for_comparison skill = Spec.comparison_key skill.
Proof.
  intros Hu. unfold normalize_for_comparison, Spec.comparison_key.
  do 3 f_equal. unfold Re.sub. rewrite sub_negated_class.
  apply filter_agree. intros c Hc.
  rewrite accepts_word_or_space. unfold is_word.
  assert (c ≠ "_"%char) as Hne.
  { intros ->. apply Hu. unfold Str.lower in Hc.
    apply list_elem_of_fmap in Hc as (c' & Hc' & Hin).
    symmetry in Hc'. apply lower_char_underscore in Hc'. by subst. }
  assert ((code c =? 95)%N = false) as ->.
  { apply N.eqb_neq. intros H. apply Hne.
    rewrite <- (of_code_code c). by rewrite H. }
  rewrite orb_false_r. by destruct (is_alnum c || is_space c).
Qed.

(** C6 fails on the source.  The class [\w] of [re] contains the
    underscore, so [[^\w\s]] does not strip it: the key of "a_b" is "a_b",
    where the specification (and the comment "Remove all punctuation and
    special characters" of the source) gives "ab". *)
Theorem normalize_for_comparison_keeps_underscore :
  normalize_for_comparison (lit "a_b") = lit "a_b"
  ∧ Spec.comparison_key (lit "a_b") = lit "ab"
  ∧ is_alnum "_" = false ∧ is_space "_" = false.
Proof. repeat split; by_eval. Qed.

(** *** Validity *)

Lemma star_total {R} ic c (k : str → option R) s :
  (∀ t, is_Some (k t)) → is_Some (star ic c k s).
Proof.
  intros Hk. induction s as [|x s IH]; simpl; [done |].
  destruct (accepts ic c x); [| done]. by destruct IH as [r ->].
Qed.

(** [\s+] matches exactly where whitespace starts. *)
Lemma spaces_here n0 x s :
  if is_space x
  then ∃ m rest g, x :: s = (x :: m) ++ rest
         ∧ match_here false n0 (Plus Space) (x :: s) = Some (rest, g)
  else match_here false n0 (Plus Space) (x :: s) = None.
Proof.
  unfold match_here. cbn [exec plus accepts in_set].
  rewrite orb_false_r. destruct (is_space x); [| done].
  destruct (star_total false Space (λ s', Some (s', @None str)) s)
    as [[rest g] Hs]; [by eauto |].
  destruct (star_reads _ _ _ _ _ Hs) as (m & rest' & -> & _ & Hk).
  simplify_eq. by exists m, rest, None.
Qed.

(** After [re.sub(r'\s+', ' ', s)] the only whitespace left is the plain
    space. *)
Lemma collapse_spaces n0 : ∀ (n : nat) (s : str), length s ≤ n →
  Forall (λ c, is_space c = false ∨ c = " "%char)
    (sub_from false n0 (Plus Space) (lit " ") 0 s).
Proof.
  induction n as [|n IH]; intros s Hn.
  { destruct s; [constructor | simpl in Hn; lia]. }
  destruct s as [|x s]; [constructor |]. simpl in Hn.
  pose proof (spaces_here n0 x s) as Hx.
  destruct (is_space x) eqn:Hsp.
  - destruct Hx as (m & rest & g & E & Hm). injection E as ->.
    rewrite (sub_from_match _ _ _ _ _ _ _ _ Hm).
    constructor; [by right |]. apply IH. rewrite length_app in Hn. lia.
  - rewrite sub_from_keep by done. constructor; [by left |].
    apply IH. lia.
Qed.

Lemma ascii_fold_char_newline c :
  c ≠ newline → Forall (λ x, x ≠ newline) (ascii_fold_char c).
Proof.
  each_char c; intros H; try done; vm_compute; repeat constructor; done.
Qed.

(** A comparison key holds no newline. *)
Lemma normalize_for_comparison_newline (skill : str) :
  Forall (λ x, x ≠ newline) (normalize_for_comparison skill).
Proof.
  unfold normalize_for_comparison, ascii_fold.
  set (collapsed := Re.sub _ _ _ _).
  assert (Forall (λ c, is_space c = false ∨ c = " "%char)
            (Str.strip collapsed)) as H.
  { apply strip_Forall. unfold collapsed, Re.sub.
    by eapply collapse_spaces. }
  induction H as [|c l Hc _ IH]; simpl; [constructor |].
  apply Forall_app. split; [| exact IH].
  apply ascii_fold_char_newline. by destruct Hc as [Hc | ->]; [intros -> |].
Qed.

Lemma digits_span (n : str) :
  ∃ ds rest, n = ds ++ rest
    ∧ Forall (λ c, is_decimal c = true) ds
    ∧ (∀ x t, rest = x :: t → is_decimal x = false).
Proof.
  induction n as [|c n (ds & rest & -> & Hds & Hrest)].
  - exists [], []. by repeat split.
  - destruct (is_decimal c) eqn:Hc.
    + exists (c :: ds), rest. repeat split; [by constructor | done].
    + exists [], (c :: ds ++ rest). repeat split; [constructor |].
      by intros x t [= <- _].
Qed.

Lemma decimal_not_newline x : is_decimal x = true → x ≠ newline.
Proof. by intros H ->. Qed.

(** [^\d+$] on a string without newline: a non-empty string of digits. *)
Lemma digits_only_match (n : str) :
  Forall (λ x, x ≠ newline) n →
  is_Some (Re.match_ false digits_only n)
  ↔ n ≠ [] ∧ Forall (λ c, is_decimal c = true) n.
Proof.
  intros Hnl.
  assert (is_Some (Re.match_ false digits_only n)
          ↔ is_Some (match_here false (length n) digits_only n)) as ->.
  { unfold Re.match_. destruct (match_here _ _ _ _) as [[? ?]|]; [| done].
    split; eauto. }
  unfold match_here, digits_only. cbn [exec].
  rewrite bool_decide_eq_true_2 by done.
  destruct n as [|x n]; [split; [by intros [? ?] | by intros [? _]] |].
  cbn [plus accepts in_set]. rewrite orb_false_r.
  destruct (is_decimal x) eqn:Hx.
  2:{ split; [by intros [? ?] |]. intros [_ H].
      apply Forall_cons in H as [H _]. congruence. }
  apply Forall_cons in Hnl as [_ Hnl].
  destruct (digits_span n) as (ds & rest & -> & Hds & Hrest).
  assert (Forall (λ y, accepts false Digit y = true) ds) as Hacc.
  { eapply Forall_impl; [exact Hds |]. simpl. by intros ? ->. }
  destruct rest as [|y t].
  - rewrite app_nil_r in *. split; [intros _ | intros _].
    + split; [done | by constructor].
    + rewrite <- (app_nil_r ds).
      by rewrite (star_all false Digit _ ds [] ([], None) Hacc).
  - assert (y ≠ newline) as Hy.
    { apply Forall_app in Hnl as [_ Hnl]. by apply Forall_cons in Hnl as [? _]. }
    rewrite (star_none false Digit _ ds (y :: t) Hacc).
    + split; [by intros [? ?] |]. intros [_ H].
      apply Forall_cons in H as [_ H]. apply Forall_app in H as [_ H].
      apply Forall_cons in H as [H _]. by rewrite (Hrest y t eq_refl) in H.
    + intros ? ? [= <- <-]. simpl. by rewrite (Hrest y t eq_refl).
    + destruct t; [| done]. by rewrite bool_decide_eq_false_2.
    + intros z u Hz. simpl in Hz. rewrite orb_false_r in Hz.
      destruct u; [| done].
      by rewrite bool_decide_eq_false_2 by (by apply decimal_not_newline).
Qed.

(** On a key, [is_valid_skill] is the validity predicate of the
    specification. *)
Lemma is_valid_skill_spec (skill normalized : str) :
  Forall (λ x, x ≠ newline) normalized →
  is_valid_skill skill normalized = true ↔ Spec.valid_key normalized.
Proof.
  intros Hnl. unfold is_valid_skill, Spec.valid_key.
  pose proof (digits_only_match normalized Hnl) as Hd.
  destruct normalized as [|c n]; [by split; [| intros [? _]] |].
  cbn [Str.truthy negb]. case_bool_decide as Hm.
  { apply Hd in Hm as [_ Hm]. split; [done | by intros (_ & ? & _)]. }
  cbn [length]. rewrite (bool_decide_eq_false_2 (S _ = 0)) by done.
  cbn [andb]. case_bool_decide as Hlen.
  - split; [done |]. intros (_ & _ & ?). lia.
  - split; [intros _ | done]. split; [done |]. split; [| lia].
    intros Hall. apply Hm, Hd. done.
Qed.

(** *** The loop *)

Lemma first_of_snoc seen skill x : first_of seen x → first_of (seen ++ [skill]) x.
Proof.
  intros (before & c & after & -> & Hc & Hv & Hb).
  exists before, c, (after ++ [skill]). by rewrite <- app_assoc.
Qed.

Lemma invariant_empty : invariant [] ∅ [].
Proof.
  constructor.
  - intros k v. by rewrite lookup_empty.
  - by intros x ?%elem_of_nil.
  - constructor.
  - intros k. rewrite lookup_empty. split; [by intros [? ?] |].
    by intros (c & ?%elem_of_nil & _).
  - by intros x ?%elem_of_nil.
Qed.

Lemma add_skill_invariant seen m l skill :
  invariant seen m l →
  invariant (seen ++ [skill]) (add_skill (m, l) skill).1
    (add_skill (m, l) skill).2.
Proof.
  intros [Hmap Hlist Hnd Hkeys Hfirst]. unfold add_skill.
  fold (key skill).
  destruct (is_valid_skill (clean_skill_name skill) (key skill)) eqn:Hok;
    [destruct (m !! key skill) as [v|] eqn:Hm |]; cbn [fst snd].
  - (* the key has been seen *)
    constructor; try done.
    + intros k. rewrite Hkeys. split.
      * intros (c & Hc & ?). exists c. rewrite elem_of_app. auto.
      * intros (c & [Hc | ->%list_elem_of_singleton]%elem_of_app & Hv & <-).
        -- eauto.
        -- apply Hkeys. by rewrite Hm.
    + intros x Hx. by apply first_of_snoc, Hfirst.
  - (* a new key *)
    constructor.
    + intros k v. destruct (decide (k = key skill)) as [->|Hne].
      * rewrite lookup_insert_eq. intros [= <-]. split; [| done].
        apply elem_of_app. right. by apply list_elem_of_singleton.
      * rewrite lookup_insert_ne by done. intros [Hv Hk]%Hmap.
        split; [| done]. apply elem_of_app. by left.
    + intros x [Hx | ->%list_elem_of_singleton]%elem_of_app.
      * rewrite lookup_insert_ne; [by apply Hlist |].
        intros E. apply Hlist in Hx. unfold key in E. rewrite <- E in Hx.
        fold (key skill) in Hx. congruence.
      * apply lookup_insert_eq.
    + apply NoDup_app. split; [done |]. split; [| apply NoDup_singleton].
      intros x Hx ->%list_elem_of_singleton. apply Hlist in Hx.
      fold (key skill) in Hx. congruence.
    + intros k. destruct (decide (k = key skill)) as [->|Hne].
      * rewrite lookup_insert_eq. split; [intros _ | by eauto].
        exists skill. rewrite elem_of_app, list_elem_of_singleton. auto.
      * rewrite lookup_insert_ne by done. rewrite Hkeys. split.
        -- intros (c & Hc & ?). exists c. rewrite elem_of_app. auto.
        -- intros (c & [Hc | ->%list_elem_of_singleton]%elem_of_app & Hv & E);
             [eauto | done].
    + intros x [Hx | ->%list_elem_of_singleton]%elem_of_app.
      * by apply first_of_snoc, Hfirst.
      * exists seen, skill, []. repeat split; [done |].
        intros other Ho Hv E.
        assert (is_Some (m !! key skill)) as [? ?]; [| congruence].
        apply Hkeys. eauto.
  - (* not a valid skill *)
    constructor; try done.
    + intros k. rewrite Hkeys. split.
      * intros (c & Hc & ?). exists c. rewrite elem_of_app. auto.
      * intros (c & [Hc | ->%list_elem_of_singleton]%elem_of_app & Hv & E);
          [eauto |].
        unfold valid in Hv. congruence.
    + intros x Hx. by apply first_of_snoc, Hfirst.
Qed.

Lemma foldl_add_skill_invariant skills :
  invariant skills (foldl add_skill (∅, []) skills).1
    (foldl add_skill (∅, []) skills).2.
Proof.
  induction skills as [|skill skills IH] using rev_ind.
  - apply invariant_empty.
  - rewrite foldl_app. cbn [foldl].
    destruct (foldl add_skill (∅, []) skills) as [m l].
    by apply add_skill_invariant.
Qed.

(** The keys of the list are the keys of the map. *)
Lemma invariant_keys seen m l k :
  invariant seen m l →
  k ∈ normalize_for_comparison <$> l ↔ is_Some (m !! k).
Proof.
  intros [Hmap Hlist _ _ _]. rewrite list_elem_of_fmap. split.
  - intros (x & -> & Hx). rewrite (Hlist x Hx). eauto.
  - intros [v Hv]. destruct (Hmap k v Hv) as [? <-]. eauto.
Qed.

Lemma invariant_NoDup seen m l :
  invariant seen m l → NoDup (normalize_for_comparison <$> l).
Proof.
  intros [_ Hlist Hnd _ _]. apply NoDup_fmap_2_strong; [| done].
  intros x y Hx Hy E. apply Hlist in Hx, Hy. rewrite E in Hx. congruence.
Qed.

(** C7.  The output of the skill normalizer is sorted in ascending order
    of the cleaned strings (code point by code point); it has exactly one
    entry per key among the valid cleaned skills; each entry is the cleaned
    form of the first valid skill of the input with its key; and a skill is
    valid when its key is non-empty, not made of digits only, and at least
    two characters long. *)
Theorem process_skills_file_unique_sorted (skills : list cell) :
  let out := process_skills_file skills in
  StronglySorted Str.le out
  ∧ NoDup (normalize_for_comparison <$> out)
  ∧ (∀ k, k ∈ normalize_for_comparison <$> out
          ↔ ∃ skill, skill ∈ skills ∧ valid skill ∧ key skill = k)
  ∧ (∀ x, x ∈ out → first_of skills x)
  ∧ (∀ skill, valid skill ↔ Spec.valid_key (key skill)).
Proof.
  intros out. unfold process_skills_file in out.
  pose proof (foldl_add_skill_invariant skills) as Hinv.
  destruct (foldl add_skill (∅, []) skills) as [m l]. cbn [fst snd] in Hinv.
  assert (out ≡ₚ l) as Hperm by apply merge_sort_Permutation.
  split; [apply StronglySorted_merge_sort; apply _ |].
  split; [rewrite Hperm; by eapply invariant_NoDup |].
  split; [| split].
  - intros k. rewrite Hperm, (invariant_keys _ _ _ _ Hinv).
    apply (inv_keys _ _ _ Hinv).
  - intros x Hx. rewrite Hperm in Hx. by apply (inv_first _ _ _ Hinv).
  - intros skill. apply is_valid_skill_spec, normalize_for_comparison_newline.
Qed.

Lemma process_sample_skills :
  process_skills_file sample_skills = [cafe; lit "Python"].
Proof. by_eval. Qed.

Lemma process_skills_file_unique_sorted_witness :
  lit "Python" ∈ process_skills_file sample_skills
  ∧ first_of sample_skills (lit "Python").
Proof.
  assert (lit "Python" ∈ process_skills_file sample_skills) as H.
  { rewrite process_sample_skills. apply list_elem_of_further.
    apply list_elem_of_here. }
  split; [exact H |].
  destruct (process_skills_file_unique_sorted sample_skills)
    as (_ & _ & _ & Hfirst & _).
  exact (Hfirst _ H).
Defined.

End SkillFacts.

(** * Further properties *)

(** ** [normalize_proficiency] *)
Module LevelFacts.
Import Unicode Str Clean StrFacts CleanFacts.

(** X1.  Normalising twice is normalising once: a canonical level is its
    own normal form, and absence stays absence. *)
Theorem normalize_proficiency_idempotent (v : pyval) :
  normalize_proficiency (normalize_proficiency v) = normalize_proficiency v.
Proof.
  destruct (normalize_proficiency_canonical v) as [-> | (c & Hc & ->)];
    [done |].
  unfold Spec.canonical in Hc.
  repeat (apply elem_of_cons in Hc as [-> | Hc]; [by_eval |]).
  by apply elem_of_nil in Hc.
Qed.

(** X2.  The level of a token depends neither on its case nor on the
    whitespace around it. *)
Theorem normalize_proficiency_case_and_padding (l r s t : str) :
  Forall (λ c, is_space c = true) l → Forall (λ c, is_space c = true) r →
  lower s = lower t →
  normalize_proficiency (PStr (l ++ s ++ r)) = normalize_proficiency (PStr t).
Proof.
  intros Hl Hr Hst. rewrite !normalize_proficiency_spec.
  unfold Spec.normalize. rewrite !strip_lower.
  rewrite strip_padded by done. by rewrite <- !strip_lower, Hst.
Qed.

Lemma normalize_proficiency_case_and_padding_witness :
  normalize_proficiency (PStr (lit "  FLUENT "))
  = normalize_proficiency (PStr (lit "fluent")).
Proof.
  apply (normalize_proficiency_case_and_padding
           (lit "  ") (lit " ") (lit "FLUENT") (lit "fluent")).
  - by repeat constructor.
  - by repeat constructor.
  - reflexivity.
Defined.

End LevelFacts.

(** ** [process_batch]: the candidates and the entries *)
Module CandidateFacts.
Import Unicode Re Clean Notions Samples StrFacts ReFacts CleanFacts LevelFacts.

Local Arguments code : simpl never.
Local Arguments between : simpl never.

Lemma str_split_Forall (P : char → Prop) sep s :
  Forall P s → Forall (Forall P) (Str.split sep s).
Proof.
  induction 1 as [|c s Hc _ IH]; simpl; [by repeat constructor |].
  destruct (decide (c = sep)); [by constructor |].
  destruct (Str.split sep s) as [|p ps]; [by repeat constructor |].
  apply Forall_cons in IH as [Hp Hps]. by repeat constructor.
Qed.

(** The pieces of [s.split(sep)] do not hold the separator. *)
Lemma str_split_no_sep sep s : Forall (λ p, sep ∉ p) (Str.split sep s).
Proof.
  induction s as [|c s IH]; simpl.
  - repeat constructor. by intros ?%elem_of_nil.
  - destruct (decide (c = sep)) as [->|Hne].
    + constructor; [by intros ?%elem_of_nil | done].
    + destruct (Str.split sep s) as [|p ps].
      * repeat constructor. intros [->|?%elem_of_nil]%elem_of_cons; done.
      * apply Forall_cons in IH as [Hp Hps]. constructor; [| done].
        intros [->|?]%elem_of_cons; done.
Qed.


(** The pieces of [re.split] are made of characters of the subject. *)
Lemma split_from_Forall (P : char → Prop) ic n0 r : ∀ s skip cur,
  Forall P s → Forall P cur →
  Forall (Forall P) (split_from ic n0 r skip cur s).
Proof.
  induction s as [|x s IH]; intros skip cur Hs Hcur.
  - simpl. destruct skip; [destruct (match_here ic n0 r [])|];
      repeat constructor; by apply Forall_rev.
  - apply Forall_cons in Hs as [Hx Hs]. cbn [split_from].
    destruct skip as [|n]; [| by apply IH].
    destruct (match_here ic n0 r (x :: s)) as [[rest g]|].
    + destruct (length (x :: s) - length rest);
        (constructor; [by apply Forall_rev |]); apply IH; auto.
    + apply IH; auto.
Qed.

Lemma not_elem_of_Forall (x : char) (s : str) : x ∉ s ↔ Forall (λ c, c ≠ x) s.
Proof.
  rewrite Forall_forall. split.
  - intros H c Hc ->. done.
  - intros H Hx. by apply (H x).
Qed.

Lemma final_languages_candidate (lang_str cand : str) :
  cand ∈ final_languages lang_str →
  ∃ piece, (","%char ∉ piece) ∧ cand ∈ and_split (Str.strip piece).
Proof.
  unfold final_languages.
  intros (item & (piece & <- & Hp)%in_map_iff & Hc)%list_elem_of_In%in_flat_map.
  exists piece. split; [| by apply list_elem_of_In].
  pose proof (str_split_no_sep "," lang_str) as H.
  rewrite Forall_forall in H. by apply H, list_elem_of_In.
Qed.

Lemma candidate_without_comma (lang_str cand : str) :
  cand ∈ final_languages lang_str → ","%char ∉ cand.
Proof.
  intros (piece & Hp & Hc)%final_languages_candidate.
  unfold and_split in Hc.
  apply list_elem_of_In, in_map_iff in Hc as (part & <- & Hpart).
  apply not_elem_of_Forall, strip_Forall.
  assert (Forall (Forall (λ c, c ≠ ","%char))
            (Re.split false and_pattern (Str.strip piece))) as H.
  { apply split_from_Forall; [| constructor].
    by apply strip_Forall, not_elem_of_Forall. }
  rewrite Forall_forall in H. by apply H, list_elem_of_In.
Qed.

(** X3.  The candidates that [process_batch] hands to the extraction hold
    no comma and are trimmed: they neither start nor end with whitespace. *)
Theorem final_languages_trimmed_without_comma (lang_str cand : str) :
  cand ∈ final_languages lang_str →
  (","%char ∉ cand) ∧ Str.strip cand = cand.
Proof.
  intros Hc. split; [by apply (candidate_without_comma lang_str) |].
  apply final_languages_candidate in Hc as (piece & _ & Hc).
  unfold and_split in Hc.
  apply list_elem_of_In, in_map_iff in Hc as (part & <- & _).
  apply strip_idem.
Qed.

Lemma final_languages_trimmed_without_comma_witness :
  lit "French" ∈ final_languages (lit "English and French , German")
  ∧ (","%char ∉ lit "French") ∧ Str.strip (lit "French") = lit "French".
Proof.
  assert (lit "French" ∈ final_languages (lit "English and French , German"))
    as H by (by_eval).
  split; [exact H |].
  exact (final_languages_trimmed_without_comma _ _ H).
Defined.

Lemma lower_char_comma c : lower_char c = ","%char → c = ","%char.
Proof. each_char c; vm_compute; congruence. Qed.

Lemma lower_without (x : char) (s : str) :
  (∀ c, lower_char c = x → c = x) → x ∉ s → x ∉ Str.lower s.
Proof.
  intros Hx Hs (c & E & Hc)%list_elem_of_fmap. symmetry in E.
  apply Hx in E. by subst.
Qed.

(** A pattern that starts with a literal is not found in a string that
    does not hold the literal. *)
Lemma search_without_first_char y r (s : str) :
  lower_char y = y → upper_char y = y → y ∉ s →
  Re.search true (Seq (One (Chr y)) r) s = None.
Proof.
  intros Hy Hl Hs. apply search_None. intros l [|x t] ->; [done |].
  unfold match_here. cbn [exec]. rewrite Emitted.accepts_ic_chr by done.
  rewrite bool_decide_eq_false_2; [done |]. intros ->. apply Hs.
  apply elem_of_app. right. by left.
Qed.

(** X4.  On a candidate of [process_batch] the comma pattern never applies:
    the language string was split at its commas before. *)
Theorem after_comma_never_applies (lang_str cand : str) :
  cand ∈ final_languages lang_str →
  Re.search true after_comma (Str.strip (Str.lower cand)) = None.
Proof.
  intros Hc. apply search_without_first_char; [done | done |].
  apply not_elem_of_Forall, strip_Forall, not_elem_of_Forall.
  apply lower_without; [apply lower_char_comma |].
  by apply (candidate_without_comma lang_str).
Qed.

Lemma after_comma_never_applies_witness :
  lit "French" ∈ final_languages (lit "English and French , German")
  ∧ Re.search true after_comma (Str.strip (Str.lower (lit "French"))) = None.
Proof.
  assert (lit "French" ∈ final_languages (lit "English and French , German"))
    as H by (by_eval).
  split; [exact H |]. exact (after_comma_never_applies _ _ H).
Defined.

(** X5.  Every emitted language name is non-empty and trimmed. *)
Theorem emitted_name_trimmed (current : list dict) (d : dict) :
  d ∈ cleaned_languages current →
  ∃ name, d !! "language" = Some (PStr name)
          ∧ name ≠ [] ∧ Str.strip name = name.
Proof.
  intros (lang_obj & lang & _ & Hd)%Emitted.cleaned_languages_entry.
  apply clean_candidate_entry in Hd as (-> & Hne & _).
  rewrite make_entry_language.
  rewrite extract_proficiency_from_name_eq in Hne |- *. cbn [fst] in *.
  rewrite strip_idem. eauto using strip_idem.
Qed.

Lemma emitted_name_trimmed_witness :
  french_basic_left ∈ cleaned_languages [french_b2_basic]
  ∧ ∃ name, french_basic_left !! "language" = Some (PStr name)
            ∧ name ≠ [] ∧ Str.strip name = name.
Proof.
  assert (french_basic_left ∈ cleaned_languages [french_b2_basic]) as H.
  { rewrite Emitted.cleaned_french_b2_basic. apply list_elem_of_here. }
  split; [exact H |]. exact (emitted_name_trimmed _ _ H).
Defined.

(** *** Entries that are already clean *)










End CandidateFacts.

(** ** [process_batch]: the counters *)
Module BatchFacts.
Import Clean Notions Samples StrFacts.

Lemma dirty_spec d current :
  languages d = Some current → dirty d ↔ cleaned_languages current ≠ current.
Proof. unfold dirty. by intros ->. Qed.

(** One document: nothing for a document that is not dirty; for a dirty
    one, one call, counted as an update or as an error. *)
Lemma process_doc_cases st d :
  let st' := process_doc st d in
  refuses (coll st') = refuses (coll st)
  ∧ if decide (dirty d) then
      length (issued (coll st')) = S (length (issued (coll st)))
      ∧ if refuses (coll st) (doc_id d)
        then batch_updates st' = batch_updates st
             ∧ batch_errors st' = S (batch_errors st)
        else batch_updates st' = S (batch_updates st)
             ∧ batch_errors st' = batch_errors st
    else st' = st.
Proof.
  cbn zeta. destruct (decide (dirty d)) as [Hd|Hd]; unfold process_doc;
    destruct (languages d) as [current|] eqn:E.
  - apply (dirty_spec _ _ E) in Hd. rewrite bool_decide_eq_true_2 by done.
    unfold update_one. by destruct (refuses (coll st) (doc_id d)).
  - unfold dirty in Hd. by rewrite E in Hd.
  - rewrite bool_decide_eq_false_2; [done |].
    intros H. by apply Hd, (dirty_spec _ _ E).
  - done.
Qed.

Lemma foldl_process_doc_counts batch : ∀ st,
  let st' := foldl process_doc st batch in
  let f := refuses (coll st) in
  refuses (coll st') = f
  ∧ batch_updates st'
    = batch_updates st
      + length (filter (λ d, dirty d ∧ f (doc_id d) = false) batch)
  ∧ batch_errors st'
    = batch_errors st
      + length (filter (λ d, dirty d ∧ f (doc_id d) = true) batch)
  ∧ length (issued (coll st'))
    = length (issued (coll st)) + length (filter dirty batch).
Proof.
  induction batch as [|d batch IH]; intros st; cbn [foldl].
  { cbn zeta. rewrite !filter_nil. simpl. repeat split; lia. }
  specialize (IH (process_doc st d)). cbn zeta in IH |- *.
  destruct IH as (IHr & IHu & IHe & IHi).
  destruct (process_doc_cases st d) as [Hr Hd]. rewrite Hr in *.
  rewrite IHr, IHu, IHe, IHi. rewrite !filter_cons.
  destruct (decide (dirty d)) as [Hdirty|Hclean].
  - destruct Hd as [Hi Hc].
    destruct (refuses (coll st) (doc_id d)) eqn:Href; destruct Hc as [-> ->];
      rewrite Hi.
    + rewrite decide_False by (intros [_ ?]; congruence).
      rewrite decide_True by done. cbn [length]. repeat split; lia.
    + rewrite decide_True by done.
      rewrite decide_False by (intros [_ ?]; congruence).
      cbn [length]. repeat split; lia.
  - rewrite Hd. rewrite !decide_False by (by intros [? _]).
    repeat split; lia.
Qed.

Lemma update_of_dirty batch :
  flat_map Spec.update_of batch = update_for <$> filter dirty batch.
Proof.
  induction batch as [|d batch IH]; [done |].
  cbn [flat_map]. rewrite filter_cons, IH. unfold Spec.update_of.
  destruct (languages d) as [current|] eqn:E.
  - destruct (decide (cleaned_languages current = current)) as [Heq|Hne].
    + rewrite decide_False; [done |]. by intros Hd%(dirty_spec _ _ E).
    + rewrite decide_True by (by apply (dirty_spec _ _ E)).
      rewrite fmap_cons. unfold update_for at 2. by rewrite E.
  - rewrite decide_False; [done |]. unfold dirty. rewrite E. tauto.
Qed.

(** X7.  On documents whose [languages] is absent or a list of entries
    with text or null fields, where the cleaning itself cannot raise:
    [process_batch] issues exactly one [update_one] per dirty document, in
    the order of the batch, with the document's [_id] and its cleaned
    array, whatever the store answered for the documents before it;
    [batch_updates] counts the dirty documents the store accepted,
    [batch_errors] those it refused. *)
Theorem process_batch_counts (batch : list doc) (c : collection) :
  let r := process_batch batch c in
  r.1.1 = length (filter (λ d, dirty d ∧ refuses c (doc_id d) = false) batch)
  ∧ r.1.2
    = length (filter (λ d, dirty d ∧ refuses c (doc_id d) = true) batch)
  ∧ issued r.2 = rev (update_for <$> filter dirty batch) ++ issued c
  ∧ refuses r.2 = refuses c.
Proof.
  unfold process_batch. cbn [fst snd].
  destruct (foldl_process_doc_counts batch (BatchState 0 0 c))
    as (Hr & Hu & He & _).
  cbn [coll batch_updates batch_errors] in *. rewrite Hu, He, Hr.
  repeat split.
  rewrite Emitted.foldl_process_doc_issued. by rewrite update_of_dirty.
Qed.

(** *** Batches one after the other *)

Lemma process_doc_shift u e c d :
  process_doc (BatchState u e c) d
  = let st := process_doc (BatchState 0 0 c) d in
    BatchState (u + batch_updates st) (e + batch_errors st) (coll st).
Proof.
  unfold process_doc. cbn [coll batch_updates batch_errors].
  destruct (languages d) as [current|]; [| cbn; f_equal; lia].
  case_bool_decide; [| cbn; f_equal; lia].
  destruct (update_one c (doc_id d) (cleaned_languages current)) as [[?|?] ?];
    cbn; f_equal; lia.
Qed.

Lemma foldl_process_doc_shift batch : ∀ u e c,
  foldl process_doc (BatchState u e c) batch
  = let r := process_batch batch c in
    BatchState (u + r.1.1) (e + r.1.2) r.2.
Proof.
  unfold process_batch. cbn [fst snd].
  induction batch as [|d batch IH]; intros u e c; cbn [foldl].
  { cbn. f_equal; lia. }
  rewrite process_doc_shift. cbn zeta.
  destruct (process_doc (BatchState 0 0 c) d) as [du de c1].
  cbn [coll batch_updates batch_errors].
  rewrite (IH (u + du) (e + de) c1), (IH du de c1).
  cbn [coll batch_updates batch_errors]. f_equal; lia.
Qed.

(** Two batches in a row count and write as the one batch made of both. *)
Lemma process_batch_app a b c :
  process_batch (a ++ b) c
  = let ra := process_batch a c in
    let rb := process_batch b ra.2 in
    (ra.1.1 + rb.1.1, ra.1.2 + rb.1.2, rb.2).
Proof.
  unfold process_batch at 1. rewrite foldl_app.
  pose proof (foldl_process_doc_shift a 0 0 c) as Ha. cbn zeta in Ha.
  rewrite Ha. rewrite foldl_process_doc_shift. cbn zeta.
  cbn [coll batch_updates batch_errors]. done.
Qed.

Lemma process_batch_nil c : process_batch [] c = (0, 0, c).
Proof. reflexivity. Qed.

End BatchFacts.

(** ** [clean_languages]: what a run writes and returns *)
Module RunFacts.
Import Clean Notions Samples BatchFacts.

Ltac run_unfold :=
  unfold mbind, M_bind, bind, mret, M_ret, ret, call, raise in *.

Lemma run_batch_eq batch cl c :
  run_batch batch (RunState cl c)
  = (Return (process_batch batch c).1, RunState cl (process_batch batch c).2).
Proof.
  unfold run_batch. cbn [store client].
  by destruct (process_batch batch c) as [[u e] c'].
Qed.

(** The batch is not full yet: the document waits. *)
Lemma cursor_step_partial bs total k d st :
  Z.of_nat (length (current_batch k ++ [d])) ≠ bs →
  cursor_step bs total k d st
  = (Return (Counters (total_updates k) (total_errors k) (processed k)
               (current_batch k ++ [d])), st).
Proof. intros H. unfold cursor_step. by rewrite bool_decide_eq_false_2. Qed.

(** The batch is full: it is processed, and the progress is computed. *)
Lemma cursor_step_full bs total k d cl c :
  Z.of_nat (length (current_batch k ++ [d])) = bs →
  let batch := current_batch k ++ [d] in
  let r := process_batch batch c in
  cursor_step bs total k d (RunState cl c)
  = (if bool_decide (total = 0) then Raise ZeroDivisionError
     else Return (Counters (total_updates k + r.1.1) (total_errors k + r.1.2)
                    (processed k + length batch) []),
     RunState cl r.2).
Proof.
  intros H. cbn zeta. unfold cursor_step. rewrite bool_decide_eq_true_2 by done.
  run_unfold. rewrite run_batch_eq.
  destruct (process_batch (current_batch k ++ [d]) c) as [[u e] c'].
  cbn [fst snd]. by case_bool_decide.
Qed.

(** The loop over the cursor, when the progress can be computed: the
    documents of the full batches have been processed, as one batch would
    be; the others wait in [current_batch]. *)
Lemma cursor_loop_done bs total docs :
  (docs ≠ [] → total ≠ 0) →
  ∀ k cl c, ∃ k' done,
    cursor_loop bs total docs k (RunState cl c)
    = (Return k', RunState cl (process_batch done c).2)
    ∧ done ++ current_batch k' = current_batch k ++ docs
    ∧ total_updates k' = total_updates k + (process_batch done c).1.1
    ∧ total_errors k' = total_errors k + (process_batch done c).1.2
    ∧ ((0 < bs)%Z → (Z.of_nat (length (current_batch k)) < bs)%Z →
       (Z.of_nat (length (current_batch k')) < bs)%Z)
    ∧ ((bs ≤ 0)%Z → done = [])
    ∧ ∃ m : nat, Z.of_nat (length done) = (Z.of_nat m * bs)%Z.
Proof.
  induction docs as [|d docs IH]; intros Htotal k cl c.
  - exists k, []. cbn [cursor_loop]. run_unfold. rewrite process_batch_nil.
    cbn [fst snd]. rewrite app_nil_r.
    repeat split; try done; try lia. by exists 0.
  - assert (total ≠ 0) as Hn by (by apply Htotal).
    cbn [cursor_loop]. run_unfold.
    destruct (decide (Z.of_nat (length (current_batch k ++ [d])) = bs))
      as [Hfull|Hpart].
    + pose proof (cursor_step_full bs total k d cl c Hfull) as Hs.
      cbn zeta in Hs. rewrite Hs. rewrite bool_decide_eq_false_2 by done.
      set (batch := current_batch k ++ [d]) in *.
      set (r := process_batch batch c) in *.
      destruct (IH (λ _, Hn)
                  (Counters (total_updates k + r.1.1)
                     (total_errors k + r.1.2)
                     (processed k + length batch) []) cl r.2)
        as (k' & done & Hloop & Happ & Hu & He & Hlen & Hneg & m & Hm).
      cbn [current_batch total_updates total_errors] in *.
      exists k', (batch ++ done). rewrite process_batch_app. cbn zeta.
      fold r. cbn [fst snd]. rewrite Hloop.
      repeat split; try done.
      * rewrite <- app_assoc, Happ. unfold batch.
        by rewrite <- app_assoc.
      * lia.
      * lia.
      * intros Hpos _. apply Hlen; [done |]. simpl. lia.
      * intros Hle. exfalso. unfold batch in Hfull.
        rewrite length_app in Hfull. simpl in Hfull. lia.
      * exists (S m). rewrite length_app, Nat2Z.inj_add, Hfull, Hm. lia.
    + rewrite (cursor_step_partial bs total k d _ Hpart).
      destruct (IH (λ _, Hn)
                  (Counters (total_updates k) (total_errors k) (processed k)
                     (current_batch k ++ [d])) cl c)
        as (k' & done & Hloop & Happ & Hu & He & Hlen & Hneg & m & Hm).
      cbn [current_batch total_updates total_errors] in *.
      exists k', done. rewrite Hloop.
      repeat split; try done.
      * by rewrite Happ, <- app_assoc.
      * intros Hpos Hk. apply Hlen; [done |].
        rewrite length_app in Hpart |- *. simpl in *. lia.
      * by exists m.
Qed.

(** The documents handed to [process_batch] by the loop are those of the
    whole batches. *)
Lemma whole_batches_taken bs (docs done pending : list doc) (m : nat) :
  done ++ pending = docs →
  ((0 < bs)%Z → (Z.of_nat (length pending) < bs)%Z) →
  ((bs ≤ 0)%Z → done = []) →
  Z.of_nat (length done) = (Z.of_nat m * bs)%Z →
  take (full_batches bs (length docs)) docs = done.
Proof.
  intros <- Hlen Hneg Hm. unfold full_batches. case_bool_decide as Hpos.
  - specialize (Hlen Hpos). set (b := Z.to_nat bs).
    assert (bs = Z.of_nat b) as Hb by (unfold b; lia).
    assert (length done = m * b) as Hd by nia.
    assert (length (done ++ pending) / b = m) as ->.
    { symmetry. apply (Nat.div_unique _ _ _ (length pending)); [lia |].
      rewrite length_app. lia. }
    rewrite <- Hd. by rewrite take_app_length.
  - rewrite Hneg by lia. done.
Qed.

Lemma final_batch_eq k cl c :
  let r := process_batch (current_batch k) c in
  final_batch k (RunState cl c)
  = (Return (Counters (total_updates k + r.1.1) (total_errors k + r.1.2)
               (processed k) (current_batch k)),
     RunState cl r.2).
Proof.
  cbn zeta. unfold final_batch. destruct k as [tu te pr [|d b]].
  - cbn [current_batch total_updates total_errors processed].
    rewrite process_batch_nil. run_unfold. cbn [fst snd].
    by rewrite !Nat.add_0_r.
  - cbn [current_batch total_updates total_errors processed].
    run_unfold. rewrite run_batch_eq.
    by destruct (process_batch (d :: b) c) as [[u e] c'].
Qed.

(** X8.  When the logger, the client and the store answer, the run returns
    'completed' with the counters of one [process_batch] over all the
    documents of the cursor, has written what that one batch would have
    written, and has closed the client: the batch size changes nothing. *)
Theorem clean_languages_completed env batch_size c total docs :
  setup_logger env = Return () → mongo_client env = Return () →
  count_documents env = Return total → find env batch_size = Return docs →
  cursor_error env = None → (docs ≠ [] → total ≠ 0) →
  let r := process_batch docs c in
  clean_languages env batch_size (initial c)
  = (Return (Completed r.1.1 r.1.2), RunState Closed r.2).
Proof.
  intros Hlog Hcon Hcount Hfind Herr Htotal. cbn zeta.
  unfold clean_languages, initial, try_finally, try_except, assign_client,
    close_client.
  run_unfold. rewrite Hlog, Hcon, Hcount, Hfind, Herr. cbn [store client].
  destruct (cursor_loop_done batch_size total docs Htotal
              (Counters 0 0 0 []) Connected c)
    as (k' & done & Hloop & Happ & Hu & He & _ & _).
  run_unfold. rewrite Hloop. rewrite final_batch_eq. cbn zeta.
  cbn [current_batch total_updates total_errors client store app] in *.
  rewrite <- Happ, process_batch_app. cbn zeta. cbn [fst snd].
  by rewrite Hu, He.
Qed.

Lemma clean_languages_completed_witness :
  clean_languages (answering 2 two_docs None) 1 (initial fresh)
  = (Return (Completed (process_batch two_docs fresh).1.1
               (process_batch two_docs fresh).1.2),
     RunState Closed (process_batch two_docs fresh).2).
Proof.
  apply (clean_languages_completed (answering 2 two_docs None) 1 fresh 2
           two_docs); try reflexivity.
  intros _. discriminate.
Defined.

(** X9.  When the cursor raises after it has yielded its documents, the
    count being non-zero if there are any, the run returns 'failed' with
    that error and closes the client; exactly the documents of the whole
    batches have been processed and stay written, those waiting in the
    last, incomplete batch have not been looked at. *)
Theorem clean_languages_cursor_error env batch_size c total docs err :
  setup_logger env = Return () → mongo_client env = Return () →
  count_documents env = Return total → find env batch_size = Return docs →
  cursor_error env = Some err → (docs ≠ [] → total ≠ 0) →
  let done := take (full_batches batch_size (length docs)) docs in
  clean_languages env batch_size (initial c)
  = (Return (Failed err), RunState Closed (process_batch done c).2).
Proof.
  intros Hlog Hcon Hcount Hfind Herr Htotal. cbn zeta.
  destruct (cursor_loop_done batch_size total docs Htotal
              (Counters 0 0 0 []) Connected c)
    as (k' & done & Hloop & Happ & _ & _ & Hlen & Hneg & m & Hm).
  cbn [current_batch app] in *.
  rewrite (whole_batches_taken batch_size docs done (current_batch k') m);
    [| done | intros Hpos; apply Hlen; [done | simpl; lia] | done | done].
  unfold clean_languages, initial, try_finally, try_except, assign_client,
    close_client.
  run_unfold. rewrite Hlog, Hcon, Hcount, Hfind, Herr. cbn [store client].
  run_unfold. by rewrite Hloop.
Qed.

Lemma clean_languages_cursor_error_witness :
  clean_languages (answering 3 three_docs (Some (PyMongoError "cursor")))
    2 (initial fresh)
  = (Return (Failed (PyMongoError "cursor")),
     RunState Closed (process_batch two_docs fresh).2).
Proof.
  apply (clean_languages_cursor_error
           (answering 3 three_docs (Some (PyMongoError "cursor"))) 2 fresh 3
           three_docs); try reflexivity.
  intros _. discriminate.
Defined.

(** Documents that do not fill the batch only wait. *)
Lemma cursor_loop_waits bs total rest a : ∀ k st,
  (Z.of_nat (length (current_batch k ++ a)) < bs)%Z →
  cursor_loop bs total (a ++ rest) k st
  = cursor_loop bs total rest
      (Counters (total_updates k) (total_errors k) (processed k)
         (current_batch k ++ a)) st.
Proof.
  induction a as [|d a IH]; intros k st Hlen.
  - rewrite app_nil_r. by destruct k.
  - cbn [app cursor_loop]. run_unfold.
    rewrite cursor_step_partial.
    2:{ rewrite !length_app in *. simpl in *. lia. }
    rewrite IH; cbn [current_batch total_updates total_errors processed].
    + by rewrite <- app_assoc.
    + rewrite <- app_assoc. exact Hlen.
Qed.

(** X10.  If the store counted no document but the cursor then yields a
    full batch, the batch is processed and written, the progress line
    divides by zero, and the run returns 'failed' with that error, the
    client closed and the remaining documents untouched. *)
Theorem clean_languages_zero_count env batch_size c batch rest :
  setup_logger env = Return () → mongo_client env = Return () →
  count_documents env = Return 0 → find env batch_size = Return (batch ++ rest) →
  batch ≠ [] → Z.of_nat (length batch) = batch_size →
  clean_languages env batch_size (initial c)
  = (Return (Failed ZeroDivisionError),
     RunState Closed (process_batch batch c).2).
Proof.
  intros Hlog Hcon Hcount Hfind Hne Hlen.
  destruct (exists_last Hne) as (a & d & ->).
  unfold clean_languages, initial, try_finally, try_except, assign_client,
    close_client.
  run_unfold. rewrite Hlog, Hcon, Hcount, Hfind. cbn [store client].
  rewrite <- app_assoc.
  rewrite cursor_loop_waits.
  2:{ cbn [current_batch app]. rewrite length_app in Hlen. simpl in Hlen.
      lia. }
  cbn [current_batch total_updates total_errors processed app cursor_loop].
  run_unfold. rewrite cursor_step_full by done. cbn zeta.
  by rewrite bool_decide_eq_true_2.
Qed.

Lemma clean_languages_zero_count_witness :
  clean_languages (answering 0 two_docs None) 2 (initial fresh)
  = (Return (Failed ZeroDivisionError),
     RunState Closed (process_batch two_docs fresh).2).
Proof.
  apply (clean_languages_zero_count (answering 0 two_docs None) 2 fresh
           two_docs []); try reflexivity.
  discriminate.
Defined.

(** X11.  When the store cannot count or cannot open the cursor, the run
    returns 'failed' with the error of the store; nothing has been
    written and the client is closed. *)
Theorem clean_languages_store_failure env batch_size c err :
  setup_logger env = Return () → mongo_client env = Return () →
  count_documents env = Raise err
  ∨ (∃ total, count_documents env = Return total)
    ∧ find env batch_size = Raise err →
  clean_languages env batch_size (initial c)
  = (Return (Failed err), RunState Closed c).
Proof.
  intros Hlog Hcon Hfail.
  unfold clean_languages, initial, try_finally, try_except, assign_client,
    close_client.
  run_unfold. rewrite Hlog, Hcon. cbn [store client].
  destruct Hfail as [-> | [[total ->] ->]]; done.
Qed.

Lemma clean_languages_store_failure_witness :
  clean_languages (answering 2 two_docs None) (-1) (initial fresh)
  = (Return (Failed (ValueError "batch_size must be >= 0")),
     RunState Closed fresh).
Proof.
  apply clean_languages_store_failure; try reflexivity.
  right. split; [by exists 2 | reflexivity].
Defined.

End RunFacts.

(** ** [clean_skill_name] *)
Module BulletFacts.
Import Unicode Re CleanSkills Notions StrFacts ReFacts LevelFacts.

Local Abbreviation bullet_class :=
  (Or Space (Or (Chr "-") (Or (Chr "*") (Or (Chr "+")
     (Or (Chr ">") (Chr middle_dot)))))).

Lemma accepts_bullet_class x :
  accepts false bullet_class x = bullet_or_space x.
Proof. each_char x; reflexivity. Qed.

Lemma space_is_bullet x : is_space x = true → bullet_or_space x = true.
Proof. unfold bullet_or_space. by intros ->. Qed.

Lemma bullet_span (s : str) :
  ∃ l rest, s = l ++ rest
    ∧ Forall (λ c, bullet_or_space c = true) l
    ∧ (∀ x t, rest = x :: t → bullet_or_space x = false).
Proof.
  induction s as [|c s (l & rest & -> & Hl & Hrest)].
  - exists [], []. by repeat split.
  - destruct (bullet_or_space c) eqn:Hc.
    + exists (c :: l), rest. repeat split; [by constructor | done].
    + exists [], (c :: l ++ rest). repeat split; [constructor |].
      by intros x t [= <- _].
Qed.

(** Past the start of the subject, [^] holds nowhere. *)
Lemma sub_bullets_later n0 (s : str) :
  length s < n0 → sub_from false n0 bullets [] 0 s = s.
Proof.
  induction s as [|x s IH]; intros Hn.
  - cbn [sub_from]. unfold match_here, bullets. cbn [exec].
    rewrite bool_decide_eq_false_2; [done |]. simpl in *. lia.
  - rewrite sub_from_keep.
    + rewrite IH; [done |]. simpl in Hn. lia.
    + unfold match_here, bullets. cbn [exec].
      rewrite bool_decide_eq_false_2; [done |]. lia.
Qed.

(** [re.sub] with the bullet pattern removes the leading run of bullets
    and whitespace, and nothing else. *)
Lemma sub_bullets (l rest : str) :
  Forall (λ c, bullet_or_space c = true) l →
  (∀ x t, rest = x :: t → bullet_or_space x = false) →
  Re.sub false bullets [] (l ++ rest) = rest.
Proof.
  intros Hl Hrest. unfold Re.sub. destruct l as [|x l].
  - cbn [app]. destruct rest as [|y t]; [reflexivity |].
    rewrite sub_from_keep.
    + rewrite sub_bullets_later; [done |]. simpl. lia.
    + unfold match_here, bullets. cbn [exec plus].
      rewrite bool_decide_eq_true_2 by done.
      by rewrite accepts_bullet_class, (Hrest y t eq_refl).
  - apply Forall_cons in Hl as [Hx Hl]. cbn [app].
    rewrite (sub_from_match _ _ _ _ x l rest None).
    + rewrite sub_bullets_later; [done |].
      simpl. rewrite length_app. lia.
    + unfold match_here, bullets. cbn [exec plus].
      rewrite bool_decide_eq_true_2 by done.
      rewrite accepts_bullet_class, Hx.
      apply (star_all false bullet_class (λ s', Some (s', None))); [| | done].
      * eapply Forall_impl; [exact Hl |]. intros c Hc.
        by rewrite accepts_bullet_class.
      * intros y t E. rewrite accepts_bullet_class. by apply (Hrest y t).
Qed.

Lemma clean_skill_name_split (s : str) :
  ∃ l r, s = l ++ clean_skill_name (CStr s) ++ r
    ∧ Forall (λ c, bullet_or_space c = true) l
    ∧ Forall (λ c, is_space c = true) r.
Proof.
  destruct (bullet_span s) as (l & rest & -> & Hl & Hrest).
  unfold clean_skill_name. rewrite sub_bullets by done.
  destruct (strip_split rest) as (l2 & r & E & Hl2 & Hr).
  exists (l ++ l2), r. rewrite <- app_assoc, <- E. split; [done |].
  split; [| done]. apply Forall_app. split; [done |].
  eapply Forall_impl; [exact Hl2 |]. apply space_is_bullet.
Qed.

Lemma clean_skill_name_head (s : str) x t :
  clean_skill_name (CStr s) = x :: t → bullet_or_space x = false.
Proof.
  destruct (bullet_span s) as (l & rest & -> & Hl & Hrest).
  unfold clean_skill_name. rewrite sub_bullets by done. intros E.
  destruct (strip_split rest) as (l2 & r & E2 & Hl2 & _).
  rewrite E in E2. destruct l2 as [|y l2].
  - by apply (Hrest x (t ++ r)).
  - apply Forall_cons in Hl2 as [Hy _].
    pose proof (Hrest y (l2 ++ (x :: t) ++ r) E2) as Hb.
    apply space_is_bullet in Hy. congruence.
Qed.

Lemma clean_skill_name_last (s : str) t x :
  clean_skill_name (CStr s) = t ++ [x] → is_space x = false.
Proof. unfold clean_skill_name. apply strip_last. Qed.

(** X12.  [clean_skill_name] takes away a leading run of bullets and
    whitespace and a trailing run of whitespace, and nothing else: what is
    left starts with a character that is neither and does not end with
    whitespace. *)
Theorem clean_skill_name_strips (s : str) :
  let cleaned := clean_skill_name (CStr s) in
  (∃ l r, s = l ++ cleaned ++ r
     ∧ Forall (λ c, bullet_or_space c = true) l
     ∧ Forall (λ c, is_space c = true) r)
  ∧ (∀ x t, cleaned = x :: t → bullet_or_space x = false)
  ∧ (∀ t x, cleaned = t ++ [x] → is_space x = false).
Proof.
  cbn zeta. split; [apply clean_skill_name_split |].
  split; [apply clean_skill_name_head | apply clean_skill_name_last].
Qed.

(** A string that starts with no bullet or whitespace and ends with no
    whitespace is left as it is. *)
Lemma clean_skill_name_fixed (c : str) :
  (∀ x t, c = x :: t → bullet_or_space x = false) →
  (∀ t x, c = t ++ [x] → is_space x = false) →
  clean_skill_name (CStr c) = c.
Proof.
  intros Hh Hl. unfold clean_skill_name.
  change c with ([] ++ c) at 1.
  rewrite (sub_bullets [] c) by (constructor || done).
  apply strip_id; [| intros x t E; by apply (Hl t x)]. intros x t E.
  specialize (Hh x t E). unfold bullet_or_space in Hh.
  by apply orb_false_iff in Hh as [? _].
Qed.

(** X13.  Cleaning a cleaned skill changes nothing. *)
Theorem clean_skill_name_idempotent (skill : cell) :
  clean_skill_name (CStr (clean_skill_name skill)) = clean_skill_name skill.
Proof.
  destruct skill as [s|]; [| reflexivity].
  apply clean_skill_name_fixed.
  - apply clean_skill_name_head.
  - apply clean_skill_name_last.
Qed.

End BulletFacts.

(** ** Comparison keys and deduplication *)
Module KeyFacts.
Import Unicode Re CleanSkills Dedup Notions Samples.
Import StrFacts ReFacts SkillFacts BulletFacts.








(** In the wider alphabet the key can hold an uppercase letter: NFKD
    folds U+1D400, which [str.lower] leaves as it is, to "A". *)
Lemma normalize_for_comparison_bold_a :
  normalize_for_comparison [BoldA; "b"%char] = lit "Ab".
Proof. by_eval. Qed.

(** *** Skills that add nothing *)

Lemma add_skill_nothing m l skill :
  (valid skill → is_Some (m !! key skill)) →
  add_skill (m, l) skill = (m, l).
Proof.
  intros H. unfold add_skill. fold (key skill).
  destruct (is_valid_skill (clean_skill_name skill) (key skill)) eqn:Hv;
    [| done].
  by destruct (H Hv) as [v ->].
Qed.

Lemma foldl_add_skill_nothing m l more :
  (∀ skill, skill ∈ more → valid skill → is_Some (m !! key skill)) →
  foldl add_skill (m, l) more = (m, l).
Proof.
  induction more as [|skill more IH]; intros H; [done |]. cbn [foldl].
  rewrite add_skill_nothing by (apply H; by left).
  apply IH. intros c Hc. apply H. by right.
Qed.

(** X15.  Skills that are not valid, or whose key was already met among
    the valid ones, change nothing when they come later in the column; in
    particular the column read twice gives the output of the column. *)
Theorem process_skills_file_later_duplicates (skills more : list cell) :
  (∀ skill, skill ∈ more → valid skill →
     ∃ first, first ∈ skills ∧ valid first ∧ key first = key skill) →
  process_skills_file (skills ++ more) = process_skills_file skills.
Proof.
  intros H. unfold process_skills_file. rewrite foldl_app.
  pose proof (foldl_add_skill_invariant skills) as Hinv.
  destruct (foldl add_skill (∅, []) skills) as [m l]. cbn [fst snd] in Hinv.
  rewrite foldl_add_skill_nothing; [done |].
  intros skill Hin Hv. apply (inv_keys _ _ _ Hinv). by apply H.
Qed.

Lemma process_skills_file_later_duplicates_witness :
  process_skills_file (sample_skills ++ sample_skills)
  = process_skills_file sample_skills.
Proof.
  apply process_skills_file_later_duplicates.
  intros skill Hin Hv. by exists skill.
Defined.

(** *** The output as input *)

Global Instance le_antisymm : AntiSymm (=) Str.le.
Proof. intros a b. apply le_antisym. Qed.

Lemma foldl_add_skill_fresh (xs : list str) : ∀ m l,
  (∀ x, x ∈ xs →
     clean_skill_name (CStr x) = x
     ∧ is_valid_skill x (normalize_for_comparison x) = true
     ∧ m !! normalize_for_comparison x = None) →
  NoDup (normalize_for_comparison <$> xs) →
  (foldl add_skill (m, l) (CStr <$> xs)).2 = l ++ xs.
Proof.
  induction xs as [|x xs IH]; intros m l Hxs Hnd.
  - simpl. by rewrite app_nil_r.
  - rewrite fmap_cons in Hnd. apply NoDup_cons in Hnd as [Hx Hnd].
    destruct (Hxs x) as (Hc & Hv & Hm); [by left |].
    cbn [fmap list_fmap foldl]. unfold add_skill at 2.
    rewrite Hc, Hv, Hm. rewrite IH; [by rewrite <- app_assoc | | done].
    intros y Hy. destruct (Hxs y) as (Hcy & Hvy & Hmy); [by right |].
    repeat split; [done | done |].
    rewrite lookup_insert_ne; [done |]. intros E. apply Hx.
    rewrite E. by apply list_elem_of_fmap_2.
Qed.

(** X16.  The loop and the sort are idempotent on cells: from the rows
    they produced, handed back as string cells, they produce the same
    rows.  (A second run of the script reads them through
    [pandas.read_csv], which does not hand every row back as a string.) *)
Theorem process_skills_file_idempotent (skills : list cell) :
  process_skills_file (CStr <$> process_skills_file skills)
  = process_skills_file skills.
Proof.
  set (out := process_skills_file skills).
  assert (out ≡ₚ (foldl add_skill (∅, []) skills).2) as Hperm.
  { unfold out, process_skills_file.
    destruct (foldl add_skill (∅, []) skills) as [m l].
    apply merge_sort_Permutation. }
  assert (StronglySorted Str.le out) as Hsorted.
  { unfold out, process_skills_file.
    destruct (foldl add_skill (∅, []) skills) as [m l].
    apply StronglySorted_merge_sort; apply _. }
  pose proof (foldl_add_skill_invariant skills) as Hinv.
  assert ((foldl add_skill (∅, []) (CStr <$> out)).2 = out) as Hfold.
  { rewrite foldl_add_skill_fresh; [done | |].
    - intros x Hx. rewrite Hperm in Hx.
      destruct (inv_first _ _ _ Hinv x Hx)
        as (before & skill & after & _ & <- & Hv & _).
      split.
      { destruct skill as [text|]; [| reflexivity].
        apply clean_skill_name_fixed;
          [apply clean_skill_name_head | apply clean_skill_name_last]. }
      split; [exact Hv | apply lookup_empty].
    - rewrite Hperm. by eapply invariant_NoDup. }
  unfold process_skills_file at 1.
  destruct (foldl add_skill (∅, []) (CStr <$> out)) as [m' l'].
  cbn [snd] in Hfold. subst l'. unfold sort.
  apply (StronglySorted_unique Str.le);
    [| done | apply merge_sort_Permutation].
  apply StronglySorted_merge_sort; apply _.
Qed.

End KeyFacts.

(** ** [clean.py]: what the patterns take out of a candidate *)
Module ExtractFacts.
Import Unicode Re Clean StrFacts ReFacts CleanFacts LevelFacts CandidateFacts.

Local Arguments code : simpl never.
Local Arguments between : simpl never.
















End ExtractFacts.

(** ** [clean.py]: markers outside parentheses *)
Module TokenFacts.
Import Unicode Re Clean Notions StrFacts ReFacts CleanFacts LevelFacts.

Local Arguments code : simpl never.
Local Arguments between : simpl never.

Lemma group_take (m rest : str) :
  take (length (m ++ rest) - length rest) (m ++ rest) = m.
Proof. by rewrite length_read, take_app_length. Qed.

(** A literal word under [re.IGNORECASE] reads a text that is the word up
    to [case_fold]. *)
Lemma exec_word {R} n0 (w : str) :
  ∀ (k : str → option str → option R) (s : str) g res,
    exec true n0 (word w) k s g = Some res →
    ∃ m rest, s = m ++ rest ∧ map case_fold m = map case_fold w
              ∧ k rest g = Some res.
Proof.
  induction w as [|c w IH]; intros k s g res H.
  { exists [], s. auto. }
  assert (∀ (k' : str → option str → option R),
            exec true n0 (One (Chr c)) k' s g = Some res →
            ∃ x rest, s = x :: rest ∧ case_fold x = case_fold c
                      ∧ k' rest g = Some res) as Hone.
  { intros k' H'. cbn [exec accepts] in H'. destruct s as [|x s]; [done |].
    case_bool_decide; [| done]. eauto. }
  destruct w as [|c' w].
  - apply Hone in H as (x & rest & -> & Hx & Hk).
    exists [x], rest. cbn. by rewrite Hx.
  - change (word (c :: c' :: w)) with (Seq (One (Chr c)) (word (c' :: w)))
      in H.
    cbn [exec] in H. apply Hone in H as (x & rest & -> & Hx & Hk).
    apply IH in Hk as (m & rest' & -> & Hm & Hk).
    exists (x :: m), rest'. split; [done |]. split; [| done].
    cbn [map]. by rewrite Hx, Hm.
Qed.

Lemma accepts_one_to_five y :
  accepts true (Range "1" "5") y = true →
  y ∈ ["1"; "2"; "3"; "4"; "5"]%char.
Proof.
  each_char y; vm_compute; intros H; try discriminate;
    repeat first [apply list_elem_of_here | apply list_elem_of_further].
Qed.

Ltac in_words :=
  unfold level_words;
  repeat first [apply list_elem_of_here | apply list_elem_of_further].

(** What the group of the three patterns reads is one of the level words,
    up to [case_fold]. *)
Lemma exec_level_token {R} n0 (k : str → option str → option R) s g res :
  exec true n0 level_token k s g = Some res →
  ∃ m rest, s = m ++ rest ∧ map case_fold m ∈ level_words
            ∧ k rest (Some m) = Some res.
Proof.
  set (K := λ (s' : str) (_ : option str),
              k s' (Some (take (length s - length s') s))).
  set (advance := Seq (word (lit "advance")) (Opt (One (Chr "d")))).
  set (a_digit := Seq (One (Chr "a")) (One (Range "1" "5"))).
  change (exec true n0 level_token k s g)
    with (match exec true n0 (word (lit "beginner")) K s g with
          | Some r => Some r
          | None =>
          match exec true n0 (word (lit "basic")) K s g with
          | Some r => Some r
          | None =>
          match exec true n0 (word (lit "intermediate")) K s g with
          | Some r => Some r
          | None =>
          match exec true n0 advance K s g with
          | Some r => Some r
          | None => exec true n0 a_digit K s g
          end end end end).
  assert (∀ w (K' : str → option str → option R) r,
            exec true n0 (word w) K' s g = Some r →
            ∃ m rest, s = m ++ rest ∧ map case_fold m = map case_fold w
                      ∧ K' rest g = Some r) as Hw
    by (intros w K' r; apply exec_word).
  assert (∀ m rest r, s = m ++ rest → K rest g = Some r →
            k rest (Some m) = Some r) as HK.
  { intros m rest r ->. unfold K. by rewrite group_take. }
  destruct (exec true n0 (word (lit "beginner")) K s g) as [r|] eqn:H1.
  { intros [= ->]. apply Hw in H1 as (m & rest & E & Hm & Hk).
    exists m, rest. rewrite Hm. split; [done |]. split; [in_words | eauto]. }
  destruct (exec true n0 (word (lit "basic")) K s g) as [r|] eqn:H2.
  { intros [= ->]. apply Hw in H2 as (m & rest & E & Hm & Hk).
    exists m, rest. rewrite Hm. split; [done |]. split; [in_words | eauto]. }
  destruct (exec true n0 (word (lit "intermediate")) K s g) as [r|] eqn:H3.
  { intros [= ->]. apply Hw in H3 as (m & rest & E & Hm & Hk).
    exists m, rest. rewrite Hm. split; [done |]. split; [in_words | eauto]. }
  destruct (exec true n0 advance K s g) as [r|] eqn:H4.
  { intros [= ->].
    change (exec true n0 advance K s g)
      with (exec true n0 (word (lit "advance"))
              (exec true n0 (Opt (One (Chr "d"))) K) s g) in H4.
    apply Hw in H4 as (m & rest & E & Hm & Hk).
    cbn [exec accepts] in Hk. destruct rest as [|x rest].
    - exists m, []. rewrite Hm. split; [done |]. split; [in_words | eauto].
    - destruct (bool_decide (case_fold x = case_fold "d")) eqn:Hx.
      + apply bool_decide_eq_true in Hx.
        destruct (K rest g) as [r'|] eqn:Hd.
        * injection Hk as ->. exists (m ++ [x]), rest.
          rewrite <- app_assoc. split; [done |]. split.
          -- rewrite map_app, Hm. cbn [map]. rewrite Hx. in_words.
          -- apply HK; [| done]. by rewrite <- app_assoc.
        * exists m, (x :: rest). rewrite Hm.
          split; [done |]. split; [in_words | eauto].
      + exists m, (x :: rest). rewrite Hm.
        split; [done |]. split; [in_words | eauto]. }
  unfold a_digit. cbn [exec accepts].
  destruct s as [|x [|y rest]]; try done.
  { by case_bool_decide. }
  case_bool_decide as Hx; [| done].
  destruct (in_set _ y || _) eqn:Hy; [| done].
  intros Hk. exists [x; y], rest. split; [done |]. split.
  - apply accepts_one_to_five in Hy. cbn [map]. rewrite Hx.
    repeat (apply elem_of_cons in Hy as [-> | Hy]; [in_words |]).
    by apply elem_of_nil in Hy.
  - by apply (HK [x; y] rest).
Qed.

Lemma exec_eol {R} ic n0 (k : str → option str → option R) s g res :
  exec ic n0 Eol k s g = Some res → k s g = Some res.
Proof.
  cbn [exec]. destruct s as [|c [|? ?]]; [done | | done].
  by case_bool_decide.
Qed.

(** The group of a match of one of the three patterns: a level word up to
    [case_fold], read in the subject. *)
Lemma match_here_word_pattern n0 p t rest g :
  p ∈ word_patterns →
  match_here true n0 p t = Some (rest, g) →
  ∃ m pre post, g = Some m ∧ t = pre ++ m ++ post
                ∧ map case_fold m ∈ level_words.
Proof.
  assert (∀ c s,
            match_here true n0 (Seq (One (Chr c))
                                  (Seq (Star (Chr " ")) level_token)) s
            = Some (rest, g) →
            ∃ m pre post, g = Some m ∧ s = pre ++ m ++ post
                          ∧ map case_fold m ∈ level_words) as Hsep.
  { intros c s. unfold match_here. cbn [exec]. destruct s as [|x s]; [done |].
    destruct (accepts true (Chr c) x); [| done]. intros H.
    apply star_reads in H as (ws & s' & -> & _ & H).
    apply exec_level_token in H as (m & r & -> & Hm & Hk).
    exists m, (x :: ws), r. by simplify_eq. }
  unfold word_patterns. intros Hp H.
  apply elem_of_cons in Hp as [-> | Hp]; [by apply (Hsep "-"%char t) |].
  apply elem_of_cons in Hp as [-> | Hp]; [by apply (Hsep ","%char t) |].
  apply list_elem_of_singleton in Hp as ->.
  unfold match_here, at_end in H. cbn [exec] in H.
  destruct t as [|x s]; [done |].
  destruct (accepts true (Chr " ") x); [| done].
  apply exec_level_token in H as (m & r & -> & Hm & Hk).
  apply (exec_eol true n0 (λ s' g', Some (s', g'))) in Hk.
  exists m, [x], r. by simplify_eq.
Qed.

Lemma search_from_Some ic n0 r pre s f :
  search_from ic n0 r pre s = Some f →
  ∃ l t, s = l ++ t ∧ match_here ic n0 r t = Some (after f, group1 f).
Proof.
  revert pre. induction s as [|x s IH]; intros pre; cbn [search_from].
  - destruct (match_here ic n0 r []) as [[s' g]|] eqn:H; [| done].
    intros [= <-]. by exists [], [].
  - destruct (match_here ic n0 r (x :: s)) as [[s' g]|] eqn:H.
    + intros [= <-]. by exists [], (x :: s).
    + intros (l & t & -> & Ht)%IH. by exists (x :: l), t.
Qed.

(** Each of the level words is a spelling that [normalize_proficiency]
    knows, whatever its case. *)
Lemma level_word_is_level (m : str) :
  Str.lower m ∈ level_words →
  ∃ level, level ∈ Spec.canonical ∧ normalize_proficiency (PStr m) = PStr level.
Proof.
  intros Hm.
  assert (normalize_proficiency (PStr m)
          = normalize_proficiency (PStr (Str.lower m))) as ->.
  { rewrite !normalize_proficiency_spec. unfold Spec.normalize.
    by rewrite lower_idem. }
  revert Hm. generalize (Str.lower m). intros w Hw.
  destruct (normalize_proficiency_canonical (PStr w)) as [E | H]; [| done].
  exfalso. rewrite normalize_proficiency_spec in E. revert E.
  unfold level_words in Hw.
  repeat (apply elem_of_cons in Hw as [-> | Hw]; [by vm_compute |]).
  by apply elem_of_nil in Hw.
Qed.

(** Apart from U+017F and U+0131, [re.IGNORECASE] compares through the
    lowercase forms. *)
Lemma case_fold_usual c : usual_case c = true → case_fold c = lower_char c.
Proof. each_char c; vm_compute; congruence. Qed.

Lemma lower_char_usual c : usual_case c = true → usual_case (lower_char c) = true.
Proof. each_char c; vm_compute; congruence. Qed.

Lemma word_pattern_marker p (s : str) f :
  Forall (λ c, usual_case c = true) s →
  p ∈ word_patterns → Re.search true p s = Some f →
  ∃ level, level ∈ Spec.canonical
           ∧ normalize_proficiency (group f) = PStr level.
Proof.
  intros Hs Hp (l & t & -> & Ht)%search_from_Some.
  destruct (match_here_word_pattern _ _ _ _ _ Hp Ht)
    as (m & pre & post & Hg & -> & Hm).
  unfold group. rewrite Hg. apply level_word_is_level.
  assert (Str.lower m = map case_fold m) as ->; [| done].
  apply Forall_app in Hs as [_ Hs]. apply Forall_app in Hs as [_ Hs].
  apply Forall_app in Hs as [Hs _]. unfold Str.lower. clear -Hs.
  induction Hs as [|c m' Hc _ IH]; [done |].
  cbn [map]. by rewrite IH, case_fold_usual.
Qed.

(** X18.  Outside parentheses a marker is always a level: when the
    candidate holds neither U+017F nor U+0131, has no closed parenthesis,
    and the hyphen, comma or end pattern is found in it, the extracted
    proficiency is a canonical level, never [None]. *)
Theorem extract_word_marker_is_level (lang : str) :
  Forall (λ c, usual_case c = true) lang →
  let s := Str.strip (Str.lower lang) in
  Re.search true in_parentheses s = None →
  Exists (λ p, is_Some (Re.search true p s)) word_patterns →
  ∃ level, level ∈ Spec.canonical
           ∧ (extract_proficiency_from_name lang).2 = PStr level.
Proof.
  intros Husual s Hparen Hfound.
  assert (Forall (λ c, usual_case c = true) s) as Hs.
  { apply strip_Forall. unfold Str.lower. apply Forall_fmap.
    eapply Forall_impl; [exact Husual |]. apply lower_char_usual. }
  rewrite extract_proficiency_from_name_eq. fold s.
  cbn [snd]. unfold proficiency_patterns. cbn [try_patterns].
  rewrite Hparen.
  destruct (Re.search true after_hyphen s) as [f|] eqn:H1.
  { apply (word_pattern_marker after_hyphen s); [done | | done].
    unfold word_patterns. apply list_elem_of_here. }
  destruct (Re.search true after_comma s) as [f|] eqn:H2.
  { apply (word_pattern_marker after_comma s); [done | | done].
    unfold word_patterns. apply list_elem_of_further, list_elem_of_here. }
  destruct (Re.search true at_end s) as [f|] eqn:H3.
  { apply (word_pattern_marker at_end s); [done | | done].
    unfold word_patterns. do 2 apply list_elem_of_further.
    apply list_elem_of_here. }
  exfalso. unfold word_patterns in Hfound.
  repeat (apply Exists_cons in Hfound as [[? Hf] | Hfound]; [congruence |]).
  by apply Exists_nil in Hfound.
Qed.

Lemma extract_word_marker_is_level_witness :
  ∃ level, level ∈ Spec.canonical
           ∧ (extract_proficiency_from_name (lit "French - BASIC")).2
             = PStr level.
Proof.
  apply extract_word_marker_is_level.
  - unfold lit. apply Forall_fmap, Forall_forall. by intros a _.
  - vm_compute. reflexivity.
  - apply Exists_cons_hd. vm_compute. eauto.
Defined.

(** With U+017F for the "s" the hyphen pattern still matches, and the
    marker it takes is no spelling of a level. *)
Lemma long_s_marker_is_no_level :
  is_Some (Re.search true after_hyphen (lit "french - ba" ++ LongS :: lit "ic"))
  ∧ extract_proficiency_from_name (lit "french - ba" ++ LongS :: lit "ic")
    = (lit "french", PNone).
Proof. split; [vm_compute; eauto | by_eval]. Qed.

End TokenFacts.
